(** * Findit: the messaging back end over the key-value store

    A shallow embedding of the server routes of the lost-and-found board
    (the Hono application of the edge function): the authentication
    middleware, signup, posting and listing items, item status update,
    conversation creation, message sending, and the read routes that join
    items, conversations and messages with users; and of the guard of the
    client's send form.

    Conventions of the embedding.
    - The key-value store is one finite map from key strings to JSON values;
      the JSON values the routes write are a tagged union [Value].
    - A timestamp is the number of milliseconds since the epoch ([N]).  The
      source stores [new Date().toISOString()] and compares
      [new Date(s).getTime()]; both directions are exact on milliseconds.
    - Every reading of the clock ([Date.now()], [new Date()]) and every
      [crypto.randomUUID()] is an explicit argument of the route, one
      argument per call in the source, in the order the source evaluates
      them.
    - A string is a sequence of 8-bit characters and strings are compared
      character by character; on the ids of the application (UUIDs and
      decimal numbers, all ASCII) this is the code-unit order of
      JavaScript.
    - A route returns its JSON response together with the store it leaves.
    - The routes take the [userId] that the middleware [requireAuth]
      attached to the request; the middleware is modelled on its own and
      wraps a route given as its continuation.
    - The identity provider and the storage bucket are functions given to
      the routes that call them.
    - The store adapter does not fail here, so the [catch] branches of the
      routes (status 500) are not reached. *)

From Stdlib Require Import NArith Ascii String List Permutation Sorted Lia.
From stdpp Require Import gmap strings list fin_maps.

Local Open Scope string_scope.
Local Open Scope N_scope.

(** ** Data model *)

Module User.
Record t := mk { id : string; email : string; name : string; createdAt : N }.
End User.

Module Item.
(** The record written by [POST /items]. [imageUrl] is [null] when the
    item was posted without an image. *)
Record t := mk {
  id : string;
  type : string;
  category : string;
  title : string;
  description : string;
  location : string;
  date : string;
  imageUrl : option string;
  userId : string;
  status : string;
  createdAt : N
}.

(** [{ ...item, status }] *)
Definition with_status (i : t) (s : string) : t :=
  mk (id i) (type i) (category i) (title i) (description i) (location i)
     (date i) (imageUrl i) (userId i) s (createdAt i).
End Item.

Module Conversation.
Record t := mk {
  id : string;
  itemId : string;
  participants : list string;
  createdAt : N;
  lastMessageAt : N
}.

(** [{ ...conversation, lastMessageAt: t }] *)
Definition with_lastMessageAt (c : t) (ts : N) : t :=
  mk (id c) (itemId c) (participants c) (createdAt c) ts.
End Conversation.

Module Message.
Record t := mk {
  id : string;
  conversationId : string;
  senderId : string;
  text : string;
  createdAt : N
}.
End Message.

(** The shapes of value the routes store: the four records, and the bare id
    strings of the two secondary indexes. *)
Inductive Value :=
| VUser (u : User.t)
| VItem (i : Item.t)
| VConversation (c : Conversation.t)
| VMessage (m : Message.t)
| VId (s : string).

Abbreviation Store := (gmap string Value).

(** A JSON response: [c.json(body)] (status 200) or
    [c.json({ error }, status)]. *)
Inductive Response (A : Type) :=
| Json (body : A)
| Error (status : nat) (error : string).
Arguments Json {A} body.
Arguments Error {A} status error.

(** ** The key-value store adapter *)

(** [s.startsWith(p)] *)
Fixpoint starts_with (p s : string) : bool :=
  match p, s with
  | EmptyString, _ => true
  | String a p', String b s' => if Ascii.eqb a b then starts_with p' s' else false
  | String _ _, EmptyString => false
  end.

Module kv.
(** Modelled from the spec: [set] of the adapter [kv_store.tsx] that the
    server imports (the adapter's source is not part of the repository
    snapshot).  An upsert: it overwrites the prior value of the key. *)
Definition set (key : string) (value : Value) (st : Store) : Store :=
  <[key := value]> st.

(** Modelled from the spec: [get] of the adapter [kv_store.tsx].  It returns
    the stored value, or a not-found signal for a missing key. *)
Definition get (key : string) (st : Store) : option Value := st !! key.

(** The values of the entries whose key starts with the prefix, in the
    order of the entries. *)
Definition matching (p : string) (kvs : list (string * Value)) : list Value :=
  map snd (List.filter (fun kv => starts_with p (fst kv)) kvs).

(** Modelled from the spec: [getByPrefix] of the adapter [kv_store.tsx].  It
    returns the values (not the keys) of all keys that start with the
    prefix, in an order the store does not specify.  The order used here is
    the one in which the finite map enumerates its entries; the general
    theorems about scans hold for every enumeration order (they only use
    that the scan is a permutation of the matching entries). *)
Definition getByPrefix (p : string) (st : Store) : list Value :=
  matching p (map_to_list st).
End kv.

(** Typed reads: the record stored under a key.  Every key prefix is written
    by one route with one shape of value ([store_typed] below); a value of
    another shape is read as absent. *)
Definition get_user (st : Store) (userId : string) : option User.t :=
  match kv.get ("user:" +:+ userId) st with Some (VUser u) => Some u | _ => None end.

Definition get_item (st : Store) (itemId : string) : option Item.t :=
  match kv.get ("item:" +:+ itemId) st with Some (VItem i) => Some i | _ => None end.

Definition get_conversation (st : Store) (conversationId : string)
  : option Conversation.t :=
  match kv.get ("conversation:" +:+ conversationId) st with
  | Some (VConversation c) => Some c
  | _ => None
  end.

(** ** JavaScript library functions used by the routes *)

(** [Array.prototype.sort] is a stable sort; [le a b] says that the
    comparator does not put [b] before [a] ([cmp(a, b) <= 0]).  A stable
    sort has one possible output, which insertion from the right computes. *)
Section Sort.
Context {A : Type} (le : A -> A -> bool).

Fixpoint insert_sorted (x : A) (l : list A) : list A :=
  match l with
  | [] => [x]
  | y :: l' => if le x y then x :: l else y :: insert_sorted x l'
  end.

Fixpoint sort_by (l : list A) : list A :=
  match l with
  | [] => []
  | x :: l' => insert_sorted x (sort_by l')
  end.
End Sort.

(** [Array.prototype.includes] on an array of strings *)
Fixpoint includes (l : list string) (x : string) : bool :=
  match l with
  | [] => false
  | y :: l' => if String.eqb y x then true else includes l' x
  end.

(** [Array.prototype.find(id => id !== userId)] *)
Fixpoint find_other (l : list string) (userId : string) : option string :=
  match l with
  | [] => None
  | y :: l' => if String.eqb y userId then find_other l' userId else Some y
  end.

(** Decimal rendering of a number in a template string
    ([Number.prototype.toString]).  The fuel is the binary size of the
    number, which bounds its number of decimal digits. *)
Definition digit_char (d : N) : ascii := ascii_of_N (48 + d).

Fixpoint digits_acc (fuel : nat) (n : N) (acc : string) : string :=
  let acc' := String (digit_char (n mod 10)) acc in
  match fuel with
  | O => acc'
  | S fuel' => if n <? 10 then acc' else digits_acc fuel' (n / 10) acc'
  end.

Definition N_to_string (n : N) : string := digits_acc (N.to_nat (N.size n)) n EmptyString.

(** ** Routes *)

(** [PATCH /items/:id/status] *)
Definition updateItemStatus (st : Store) (userId itemId status : string)
  : Response Item.t * Store :=
  match get_item st itemId with
  | None => (Error 404 "Item not found", st)
  | Some item =>
      if negb (String.eqb (Item.userId item) userId)
      then (Error 403 "Unauthorized - Not item owner", st)
      else
        let updatedItem := Item.with_status item status in
        (Json updatedItem, kv.set ("item:" +:+ itemId) (VItem updatedItem) st)
  end.

(** [`${participants[0]}_${participants[1]}_${itemId}`]; a missing array
    element renders as [undefined]. *)
Definition conversationId_of (participants : list string) (itemId : string) : string :=
  nth 0 participants "undefined" +:+ "_" +:+ nth 1 participants "undefined"
    +:+ "_" +:+ itemId.

(** [POST /conversations].  [now1] and [now2] are the two [new Date()] of
    the object literal, in evaluation order. *)
Definition startConversation (st : Store) (userId itemId : string) (now1 now2 : N)
  : Response Conversation.t * Store :=
  match get_item st itemId with
  | None => (Error 404 "Item not found", st)
  | Some item =>
      let participants := sort_by String.leb [userId; Item.userId item] in
      let conversationId := conversationId_of participants itemId in
      match get_conversation st conversationId with
      | Some existing => (Json existing, st)
      | None =>
          let conversation :=
            Conversation.mk conversationId itemId participants now1 now2 in
          let st1 := kv.set ("conversation:" +:+ conversationId)
                            (VConversation conversation) st in
          let st2 := kv.set ("userConversation:" +:+ userId +:+ ":" +:+ conversationId)
                            (VId conversationId) st1 in
          let st3 := kv.set ("userConversation:" +:+ Item.userId item +:+ ":"
                               +:+ conversationId)
                            (VId conversationId) st2 in
          (Json conversation, st3)
      end
  end.

(** [`${conversationId}:${Date.now()}:${crypto.randomUUID()}`] *)
Definition messageId_of (conversationId : string) (now : N) (uuid : string) : string :=
  conversationId +:+ ":" +:+ N_to_string now +:+ ":" +:+ uuid.

(** [POST /messages].  [now] is the [Date.now()] of the message id, [uuid]
    the [crypto.randomUUID()], and [created] the [new Date()] of
    [createdAt]. *)
Definition send (st : Store) (userId conversationId text : string)
    (now : N) (uuid : string) (created : N) : Response Message.t * Store :=
  match get_conversation st conversationId with
  | None => (Error 404 "Conversation not found", st)
  | Some conversation =>
      if negb (includes (Conversation.participants conversation) userId)
      then (Error 403 "Unauthorized - Not a participant", st)
      else
        let messageId := messageId_of conversationId now uuid in
        let message := Message.mk messageId conversationId userId text created in
        let st1 := kv.set ("message:" +:+ messageId) (VMessage message) st in
        let st2 := kv.set ("conversation:" +:+ conversationId)
                     (VConversation
                        (Conversation.with_lastMessageAt conversation
                           (Message.createdAt message))) st1 in
        (Json message, st2)
  end.

(** The three steps of [POST /messages] between which the route awaits the
    store: the read with its two checks, the write of the message, and the
    write of the conversation.  Other requests can be served between two
    steps. *)
Definition send_read (st : Store) (userId conversationId : string)
  : Response Conversation.t :=
  match get_conversation st conversationId with
  | None => Error 404 "Conversation not found"
  | Some conversation =>
      if negb (includes (Conversation.participants conversation) userId)
      then Error 403 "Unauthorized - Not a participant"
      else Json conversation
  end.

Definition send_write_message (st : Store) (message : Message.t) : Store :=
  kv.set ("message:" +:+ Message.id message) (VMessage message) st.

Definition send_write_conversation (st : Store) (conversationId : string)
    (conversation : Conversation.t) (message : Message.t) : Store :=
  kv.set ("conversation:" +:+ conversationId)
    (VConversation
       (Conversation.with_lastMessageAt conversation (Message.createdAt message))) st.

(** [user?.name || 'Unknown']: the name of the joined user, or the
    placeholder when the user is missing or the name is the empty string. *)
Definition name_or_unknown (user : option User.t) : string :=
  match user with
  | Some u => if String.eqb (User.name u) EmptyString then "Unknown" else User.name u
  | None => "Unknown"
  end.

(** A message as the read route returns it: [{ ...msg, senderName }]. *)
Record MessageWithName := {
  msg : Message.t;
  senderName : string
}.

Definition messages_of (vs : list Value) : list Message.t :=
  omap (fun v => match v with VMessage m => Some m | _ => None end) vs.

Definition by_createdAt (a b : Message.t) : bool :=
  Message.createdAt a <=? Message.createdAt b.

(** [GET /messages/:conversationId] *)
Definition listMessages (st : Store) (userId conversationId : string)
  : Response (list MessageWithName) :=
  match get_conversation st conversationId with
  | None => Error 404 "Conversation not found"
  | Some conversation =>
      if negb (includes (Conversation.participants conversation) userId)
      then Error 403 "Unauthorized - Not a participant"
      else
        let allMessages :=
          messages_of (kv.getByPrefix ("message:" +:+ conversationId +:+ ":") st) in
        let messages := sort_by by_createdAt allMessages in
        Json (map (fun m =>
                     {| msg := m;
                        senderName := name_or_unknown (get_user st (Message.senderId m)) |})
                  messages)
  end.

(** A conversation as the read route returns it:
    [{ ...conv, item, otherUser }]; the two joined values are whatever
    [kv.get] returned. *)
Record ConversationView := {
  conv : Conversation.t;
  item : option Item.t;
  otherUser : option User.t
}.

Definition ids_of (vs : list Value) : list string :=
  omap (fun v => match v with VId s => Some s | _ => None end) vs.

Definition view_conversation (st : Store) (userId conversationId : string)
  : option ConversationView :=
  match get_conversation st conversationId with
  | None => None
  | Some c =>
      let item := get_item st (Conversation.itemId c) in
      let otherUserId :=
        match find_other (Conversation.participants c) userId with
        | Some o => o
        | None => "undefined"
        end in
      Some {| conv := c; item := item; otherUser := get_user st otherUserId |}
  end.

Definition by_recency (a b : ConversationView) : bool :=
  Conversation.lastMessageAt (conv b) <=? Conversation.lastMessageAt (conv a).

(** [GET /conversations] *)
Definition listConversations (st : Store) (userId : string)
  : Response (list ConversationView) :=
  let conversationIds :=
    ids_of (kv.getByPrefix ("userConversation:" +:+ userId +:+ ":") st) in
  let validConversations := omap (view_conversation st userId) conversationIds in
  Json (sort_by by_recency validConversations).

(** [GET /items/:id]: the item with the owner's name and e-mail joined. *)
Record ItemView := {
  item_of : Item.t;
  userName : string;
  userEmail : string
}.

Definition getItem (st : Store) (itemId : string) : Response ItemView :=
  match get_item st itemId with
  | None => Error 404 "Item not found"
  | Some i =>
      let user := get_user st (Item.userId i) in
      Json {| item_of := i;
              userName := name_or_unknown user;
              userEmail := match user with Some u => User.email u | None => EmptyString end |}
  end.

(** ** Tactics for keys *)

(** Decides the goals [k1 <> k2] between keys of two different prefixes. *)
Ltac key_neq := let H := fresh in intros H; simpl in H; discriminate H.

(** Reads of a key through writes of keys under other prefixes. *)
Ltac kv_simpl :=
  unfold get_item, get_user, get_conversation, kv.get, kv.set in *;
  repeat (rewrite lookup_insert_ne by key_neq);
  repeat rewrite lookup_insert_eq.

(** ** Typing of the store *)

(** Every route writes, under each key prefix, one shape of value. *)
Definition shape_ok (k : string) (v : Value) : bool :=
  match v with
  | VUser _ => starts_with "user:" k
  | VItem _ => starts_with "item:" k
  | VConversation _ => starts_with "conversation:" k
  | VMessage _ => starts_with "message:" k
  | VId _ => starts_with "userConversation:" k || starts_with "userItem:" k
  end.

Definition store_typed (st : Store) : Prop :=
  forall k v, st !! k = Some v -> shape_ok k v = true.

(** ** The scenario of the specification *)

(** User A contacts the owner B about item [item-1], the blue backpack. *)
Definition backpack : Item.t :=
  Item.mk "item-1" "lost" "Bags & Wallets" "Blue Backpack" "Left in the library"
          "Library" "2024-05-01" None "B" "active" 1714550000000.

Definition store_with_item : Store := <["item:item-1" := VItem backpack]> ∅.

(** The store after A has opened the conversation, and after A's first
    message. *)
Definition store_with_conversation : Store :=
  snd (startConversation store_with_item "A" "item-1" 2000 2000).

Definition store_with_message : Store :=
  snd (send store_with_conversation "A" "A_B_item-1" "Is this yours?" 3000 "u-1" 3000).

(** ** Decimal strings *)

(** The number a string of decimal digits denotes. *)
Fixpoint digits_value_acc (acc : N) (s : string) : N :=
  match s with
  | EmptyString => acc
  | String c s' => digits_value_acc (10 * acc + (N_of_ascii c - 48)) s'
  end.

Definition digits_value (s : string) : N := digits_value_acc 0 s.

Fixpoint all_digits (s : string) : Prop :=
  match s with
  | EmptyString => True
  | String c s' => (48 <= N_of_ascii c <= 57) /\ all_digits s'
  end.

(** ** Sequences of sends on one conversation *)

(** One [POST /messages]: the caller, the text, and what the clock and the
    random generator return during the call. *)
Record SendCall := {
  caller : string;
  body : string;
  id_now : N;
  id_uuid : string;
  created : N
}.

Definition send_call (st : Store) (conversationId : string) (call : SendCall)
  : Response Message.t * Store :=
  send st (caller call) conversationId (body call)
       (id_now call) (id_uuid call) (created call).

(** The calls served one after the other. *)
Fixpoint send_all (st : Store) (conversationId : string) (calls : list SendCall)
  : list (Response Message.t) * Store :=
  match calls with
  | [] => ([], st)
  | call :: rest =>
      let (r, st1) := send_call st conversationId call in
      let (rs, st2) := send_all st1 conversationId rest in
      (r :: rs, st2)
  end.

(** The message a call persists when it succeeds. *)
Definition message_of (conversationId : string) (call : SendCall) : Message.t :=
  Message.mk (messageId_of conversationId (id_now call) (id_uuid call))
             conversationId (caller call) (body call) (created call).

Definition message_prefix (conversationId : string) : string :=
  "message:" +:+ conversationId +:+ ":".

(** The state of the ledger of one conversation: the conversation exists,
    the keys under its message prefix are those of the messages [sent], and
    a scan of the prefix returns these messages in some order. *)
Record ledger (st : Store) (cid : string) (parts : list string)
    (sent : list Message.t) : Prop := {
  ledger_conv : exists c, get_conversation st cid = Some c
                          /\ Conversation.participants c = parts;
  ledger_keys : forall k, starts_with (message_prefix cid) k = true ->
                          is_Some (st !! k) ->
                          exists m, In m sent /\ k = "message:" +:+ Message.id m;
  ledger_scan : Permutation (messages_of (kv.getByPrefix (message_prefix cid) st)) sent
}.

(** The messages of a read, without the joined names. *)
Definition listed (r : Response (list MessageWithName)) : list Message.t :=
  match r with
  | Json out => map msg out
  | Error _ _ => []
  end.

(** ** Two sends within one millisecond *)

Definition call_hi : SendCall :=
  {| caller := "A"; body := "Is this yours?"; id_now := 1714550000123;
     id_uuid := "c56a4180-65aa-42ec-a945-5fd21dec0538"; created := 1714550000123 |}.

Definition call_yes : SendCall :=
  {| caller := "B"; body := "Yes!"; id_now := 1714550000123;
     id_uuid := "1b4e28ba-2fa1-41d2-883f-0016d3cca427"; created := 1714550000123 |}.

Definition run_hi_yes : list (Response Message.t) * Store :=
  send_all store_with_conversation "A_B_item-1" [call_hi; call_yes].

Definition run_yes_hi : list (Response Message.t) * Store :=
  send_all store_with_conversation "A_B_item-1" [call_yes; call_hi].

(** ** The client's send form *)

(** [s.trim()] is the empty string: every character of [s] is white space
    (of the white space and line terminator characters, those below 128:
    tab, line feed, vertical tab, form feed, carriage return, space). *)
Definition is_white_space (c : ascii) : bool :=
  let n := N_of_ascii c in ((9 <=? n) && (n <=? 13)) || (n =? 32).

Fixpoint blank (s : string) : bool :=
  match s with
  | EmptyString => true
  | String c s' => is_white_space c && blank s'
  end.

(** [handleSendMessage] of the item dialog: the request it posts, if any.
    [if (!conversationId || !newMessage.trim()) return;] *)
Definition handleSendMessage (conversationId : option string) (newMessage : string)
  : option (string * string) :=
  match conversationId with
  | None => None
  | Some cid =>
      if String.eqb cid EmptyString || blank newMessage then None
      else Some (cid, newMessage)
  end.

(** ** Runs of the server *)

(** A request to one of the three routes that write, with the clock
    readings and random values of its execution. *)
Inductive Request :=
| UpdateItemStatus (userId itemId status : string)
| StartConversation (userId itemId : string) (now1 now2 : N)
| Send (userId conversationId text : string) (now : N) (uuid : string) (created : N).

Definition handle (st : Store) (r : Request) : Store :=
  match r with
  | UpdateItemStatus userId itemId status =>
      snd (updateItemStatus st userId itemId status)
  | StartConversation userId itemId now1 now2 =>
      snd (startConversation st userId itemId now1 now2)
  | Send userId conversationId text now uuid created =>
      snd (send st userId conversationId text now uuid created)
  end.





(** ** The remaining routes of the server *)

(** A JSON or form field that may be missing: [!field] holds when it is
    missing or the empty string. *)
Definition present (field : option string) : bool :=
  match field with
  | Some s => negb (String.eqb s EmptyString)
  | None => false
  end.

Definition value_of (field : option string) : string :=
  match field with
  | Some s => s
  | None => "undefined"
  end.

(** [s.split(sep)] for a separator of one character. *)
Fixpoint split_on (sep : ascii) (s : string) : list string :=
  match s with
  | EmptyString => [EmptyString]
  | String c s' =>
      if Ascii.eqb c sep then EmptyString :: split_on sep s'
      else match split_on sep s' with
           | [] => [String c EmptyString]
           | w :: ws => String c w :: ws
           end
  end.

(** [c.req.header('Authorization')?.split(' ')[1]] *)
Definition accessToken_of (header : option string) : option string :=
  match header with
  | None => None
  | Some h => nth_error (split_on " " h) 1
  end.

(** The user of the identity provider: what [supabase.auth.getUser] and
    [supabase.auth.admin.createUser] return on success. *)
Record AuthUser := {
  auth_id : string;
  auth_email : string
}.

(** The middleware [requireAuth].  [getUser] is the identity provider
    ([None] when it reports an error or no user); [next] is the route, which
    receives the [userId] and [userEmail] set on the context. *)
Definition requireAuth {A : Type} (getUser : string -> option AuthUser)
    (header : option string) (next : string -> string -> Store -> Response A * Store)
    (st : Store) : Response A * Store :=
  match accessToken_of header with
  | None => (Error 401 "Unauthorized - No token provided", st)
  | Some accessToken =>
      if String.eqb accessToken EmptyString
      then (Error 401 "Unauthorized - No token provided", st)
      else
        match getUser accessToken with
        | None => (Error 401 "Unauthorized - Invalid token", st)
        | Some user =>
            if String.eqb (auth_id user) EmptyString
            then (Error 401 "Unauthorized - Invalid token", st)
            else next (auth_id user) (auth_email user) st
        end
  end.

(** The outcome of [supabase.auth.admin.createUser]. *)
Inductive CreateUserResult :=
| CreateUserError (message : string)
| CreatedUser (user : AuthUser).

(** [POST /signup].  [createUser] is the identity provider, called with the
    e-mail, the password and the name. *)
Definition signup (createUser : string -> string -> string -> CreateUserResult)
    (st : Store) (email password name : option string) (now : N)
  : Response AuthUser * Store :=
  if negb (present email) || negb (present password) || negb (present name)
  then (Error 400 "Email, password, and name are required", st)
  else
    match createUser (value_of email) (value_of password) (value_of name) with
    | CreateUserError message => (Error 400 message, st)
    | CreatedUser user =>
        (Json user,
         kv.set ("user:" +:+ auth_id user)
           (VUser (User.mk (auth_id user) (auth_email user) (value_of name) now)) st)
    end.

(** The form of [POST /items]; [form_image] is the name of the image file,
    when one is attached. *)
Record ItemForm := {
  form_type : option string;
  form_category : option string;
  form_title : option string;
  form_description : option string;
  form_location : option string;
  form_date : option string;
  form_image : option string
}.

(** The outcome of the upload of the image and of the request of its signed
    URL ([signedUrlData?.signedUrl]). *)
Inductive UploadResult :=
| UploadError
| Uploaded (signedUrl : option string).

(** [image.name.split('.').pop()] *)
Definition file_extension (name : string) : string :=
  List.last (split_on "." name) EmptyString.

(** [`${itemId}.${fileExt}`] *)
Definition filePath_of (itemId name : string) : string :=
  itemId +:+ "." +:+ file_extension name.

(** [POST /items].  [upload] is the storage bucket, called with the file
    path; [itemId] is the [crypto.randomUUID()] and [now] the [new Date()]
    of the route. *)
Definition createItem (upload : string -> UploadResult) (st : Store)
    (userId : string) (form : ItemForm) (itemId : string) (now : N)
  : Response Item.t * Store :=
  if negb (present (form_type form)) || negb (present (form_category form))
     || negb (present (form_title form)) || negb (present (form_description form))
     || negb (present (form_location form)) || negb (present (form_date form))
  then (Error 400 "Missing required fields", st)
  else
    let store_item (imageUrl : option string) :=
      let item :=
        Item.mk itemId (value_of (form_type form)) (value_of (form_category form))
                (value_of (form_title form)) (value_of (form_description form))
                (value_of (form_location form)) (value_of (form_date form))
                imageUrl userId "active" now in
      (Json item,
       kv.set ("userItem:" +:+ userId +:+ ":" +:+ itemId) (VId itemId)
         (kv.set ("item:" +:+ itemId) (VItem item) st)) in
    match form_image form with
    | None => store_item None
    | Some name =>
        match upload (filePath_of itemId name) with
        | UploadError => (Error 500 "Failed to upload image", st)
        | Uploaded signedUrl => store_item signedUrl
        end
    end.

Definition items_of (vs : list Value) : list Item.t :=
  omap (fun v => match v with VItem i => Some i | _ => None end) vs.

(** The comparator [dateB - dateA]: most recent first. *)
Definition by_newest (a b : Item.t) : bool :=
  Item.createdAt b <=? Item.createdAt a.

(** The filter of [GET /items] for the query parameters [type] and
    [category]. *)
Definition item_matches (type category : option string) (i : Item.t) : bool :=
  (if present type then String.eqb (Item.type i) (value_of type) else true)
  && (if present category && negb (String.eqb (value_of category) "all")
      then String.eqb (Item.category i) (value_of category) else true).

(** [GET /items] *)
Definition listItems (st : Store) (type category : option string)
  : Response (list Item.t) :=
  let allItems := items_of (kv.getByPrefix "item:" st) in
  let items1 :=
    if present type
    then List.filter (fun i => String.eqb (Item.type i) (value_of type)) allItems
    else allItems in
  let items2 :=
    if present category && negb (String.eqb (value_of category) "all")
    then List.filter (fun i => String.eqb (Item.category i) (value_of category)) items1
    else items1 in
  Json (sort_by by_newest items2).

(** [GET /my-items] *)
Definition myItems (st : Store) (userId : string) : Response (list Item.t) :=
  let userItemIds := ids_of (kv.getByPrefix ("userItem:" +:+ userId +:+ ":") st) in
  let validItems := omap (get_item st) userItemIds in
  Json (sort_by by_newest validItems).

(** A request to one of the five routes that write.  The identity provider
    and the storage bucket answer as the functions [createUser] and
    [upload] say. *)
Inductive Call :=
| CallSignup (email password name : option string) (now : N)
| CallCreateItem (userId : string) (form : ItemForm) (itemId : string) (now : N)
| CallRequest (r : Request).

Section Serve.
Context (createUser : string -> string -> string -> CreateUserResult)
        (upload : string -> UploadResult).

Definition serve (st : Store) (c : Call) : Store :=
  match c with
  | CallSignup email password name now =>
      snd (signup createUser st email password name now)
  | CallCreateItem userId form itemId now =>
      snd (createItem upload st userId form itemId now)
  | CallRequest r => handle st r
  end.

Definition serve_all (st : Store) (calls : list Call) : Store :=
  fold_left serve calls st.
End Serve.

(** All the required fields of the form are filled. *)
Definition form_complete (form : ItemForm) : bool :=
  present (form_type form) && present (form_category form)
  && present (form_title form) && present (form_description form)
  && present (form_location form) && present (form_date form).

(** The call is a signup that the identity provider answers with the user
    id [uid]. *)
Definition signs_up_as (createUser : string -> string -> string -> CreateUserResult)
    (uid : string) (c : Call) : bool :=
  match c with
  | CallSignup email password name _ =>
      present email && present password && present name
      && match createUser (value_of email) (value_of password) (value_of name) with
         | CreatedUser user => String.eqb (auth_id user) uid
         | CreateUserError _ => false
         end
  | _ => false
  end.

(** A string without the character [sep]. *)
Fixpoint without (sep : ascii) (s : string) : Prop :=
  match s with
  | EmptyString => True
  | String c s' => c <> sep /\ without sep s'
  end.

(** The form of the scenario: B reports the lost backpack. *)
Definition backpack_form : ItemForm :=
  {| form_type := Some "lost"; form_category := Some "Bags & Wallets";
     form_title := Some "Blue Backpack"; form_description := Some "Left in the library";
     form_location := Some "Library"; form_date := Some "2024-05-01";
     form_image := Some "back.pack.jpg" |}.

(** A bucket that stores every file and signs a URL for it, and an identity
    provider that accepts every user. *)
Definition upload_ok (path : string) : UploadResult :=
  Uploaded (Some ("https://bucket/" +:+ path)).

Definition createUser_ok (email password name : string) : CreateUserResult :=
  CreatedUser {| auth_id := "id-of-" +:+ email; auth_email := email |}.

(** The backpack as the route stores it, and the store after the post. *)
Definition posted_backpack : Item.t :=
  Item.mk "item-1" "lost" "Bags & Wallets" "Blue Backpack" "Left in the library"
          "Library" "2024-05-01" (Some "https://bucket/item-1.jpg") "B" "active" 5.

Definition store_posted : Store :=
  snd (createItem upload_ok ∅ "B" backpack_form "item-1" 5).

(** Evaluates a route whose resulting store is named by a definition:
    the answer is computed, the store is compared by name. *)
Ltac by_projections :=
  apply injective_projections; cbn [fst snd]; [vm_compute; reflexivity|reflexivity].

(** Ann signs up, B posts the backpack, Ann opens the conversation and
    writes. *)
Definition store_ann : Store :=
  snd (signup createUser_ok ∅ (Some "ann@campus") (Some "pw") (Some "Ann") 7).

Definition ann_writes : list Call :=
  [ CallCreateItem "B" backpack_form "item-1" 8;
    CallRequest (StartConversation "id-of-ann@campus" "item-1" 9 9);
    CallRequest (Send "id-of-ann@campus" "B_id-of-ann@campus_item-1" "Is this yours?"
                      10 "u-1" 10) ].

(** The ids that a call brings into the store have no colon (the ids of
    the application are UUIDs). *)
Definition call_ids_colon_free (c : Call) : Prop :=
  match c with
  | CallCreateItem userId _ itemId _ => without ":" userId /\ without ":" itemId
  | CallRequest (StartConversation userId _ _ _) => without ":" userId
  | _ => True
  end.

(** The ids of the stored items, their owners and the stored conversations
    have no colon, and every message is stored under the key built from its
    own id, which starts with the id of its conversation. *)
Record colon_free (st : Store) : Prop := {
  cf_items : forall itemId it, get_item st itemId = Some it ->
               without ":" itemId /\ without ":" (Item.userId it);
  cf_conversations : forall cid c, get_conversation st cid = Some c -> without ":" cid;
  cf_messages : forall k m, st !! k = Some (VMessage m) ->
                  without ":" (Message.conversationId m)
                  /\ exists now uuid,
                       k = "message:" +:+ messageId_of (Message.conversationId m) now uuid
}.

(** * Properties *)

(** ** Keys *)

Lemma starts_with_app (p s : string) : starts_with p (p +:+ s) = true.
Proof.
  induction p as [|a p IH]; simpl; [reflexivity|].
  now rewrite Ascii.eqb_refl.
Qed.

Lemma app_inj_prefix (p s1 s2 : string) : p +:+ s1 = p +:+ s2 -> s1 = s2.
Proof.
  induction p as [|a p IH]; simpl; intros H; [exact H|].
  injection H as H. auto.
Qed.

Lemma store_typed_set (st : Store) k v :
  store_typed st -> shape_ok k v = true -> store_typed (kv.set k v st).
Proof.
  intros Hst Hv k' v'. unfold kv.set. rewrite lookup_insert.
  case_decide; [intros [= <-]; now subst|apply Hst].
Qed.

(** On a typed store the typed reads lose nothing: a key of a record prefix
    holds a record of that kind. *)
Lemma store_typed_reads (st : Store) (id : string) (v : Value) :
  store_typed st ->
  (st !! ("conversation:" +:+ id) = Some v -> exists c, v = VConversation c)
  /\ (st !! ("item:" +:+ id) = Some v -> exists i, v = VItem i)
  /\ (st !! ("user:" +:+ id) = Some v -> exists u, v = VUser u).
Proof.
  intros Hst. repeat split; intros Hv; specialize (Hst _ _ Hv);
    destruct v; try discriminate Hst; eauto.
Qed.

Lemma updateItemStatus_typed st userId itemId status :
  store_typed st -> store_typed (snd (updateItemStatus st userId itemId status)).
Proof.
  intros Hst. unfold updateItemStatus.
  destruct (get_item st itemId); [|exact Hst].
  destruct (negb _); [exact Hst|]. simpl.
  now apply store_typed_set.
Qed.

Lemma startConversation_typed st userId itemId now1 now2 :
  store_typed st -> store_typed (snd (startConversation st userId itemId now1 now2)).
Proof.
  intros Hst. unfold startConversation.
  destruct (get_item st itemId); [|exact Hst].
  destruct (get_conversation st _); [exact Hst|]. simpl.
  repeat apply store_typed_set; auto.
Qed.

Lemma send_typed st userId conversationId text now uuid created :
  store_typed st ->
  store_typed (snd (send st userId conversationId text now uuid created)).
Proof.
  intros Hst. unfold send.
  destruct (get_conversation st conversationId); [|exact Hst].
  destruct (negb _); [exact Hst|]. simpl.
  repeat apply store_typed_set; auto.
Qed.

(** ** Item status update *)

(** C10. For an existing item and a status update by its owner, whatever the
    status string, the route answers with, and stores under the item's key,
    the stored item with only [status] replaced: id, type, category, title,
    description, location, date, imageUrl, userId and createdAt are those of
    the stored item, and no other key of the store changes. *)
Theorem updateItemStatus_only_status (st : Store) (userId itemId status : string)
    (it : Item.t) :
  get_item st itemId = Some it ->
  Item.userId it = userId ->
  exists it',
    updateItemStatus st userId itemId status
      = (Json it', <["item:" +:+ itemId := VItem it']> st)
    /\ get_item (snd (updateItemStatus st userId itemId status)) itemId = Some it'
    /\ Item.status it' = status
    /\ Item.id it' = Item.id it
    /\ Item.type it' = Item.type it
    /\ Item.category it' = Item.category it
    /\ Item.title it' = Item.title it
    /\ Item.description it' = Item.description it
    /\ Item.location it' = Item.location it
    /\ Item.date it' = Item.date it
    /\ Item.imageUrl it' = Item.imageUrl it
    /\ Item.userId it' = Item.userId it
    /\ Item.createdAt it' = Item.createdAt it
    /\ (forall k, k <> "item:" +:+ itemId ->
          snd (updateItemStatus st userId itemId status) !! k = st !! k).
Proof.
  intros Hit <-. exists (Item.with_status it status).
  unfold updateItemStatus. rewrite Hit, String.eqb_refl. simpl.
  split; [reflexivity|]. split.
  - unfold get_item, kv.get, kv.set. now rewrite lookup_insert_eq.
  - do 11 (split; [reflexivity|]).
    intros k Hk. simpl. unfold kv.set. now rewrite lookup_insert_ne.
Qed.

Lemma updateItemStatus_only_status_witness :
  exists it', updateItemStatus store_with_item "B" "item-1" "anything at all"
              = (Json it', <["item:item-1" := VItem it']> store_with_item)
              /\ Item.status it' = "anything at all"
              /\ Item.title it' = "Blue Backpack".
Proof.
  destruct (updateItemStatus_only_status store_with_item "B" "item-1"
              "anything at all" backpack eq_refl eq_refl)
    as (it' & H1 & _ & H3 & _ & _ & _ & H4 & _).
  exists it'. split; [exact H1|]. split; [exact H3|exact H4].
Defined.

(** ** Creating a conversation *)

Lemma sort_pair (a b : string) :
  sort_by String.leb [a; b] = if String.leb a b then [a; b] else [b; a].
Proof. reflexivity. Qed.

(** What the route writes when the conversation does not exist yet: the
    record, whose two timestamps are the two clock readings, and one index
    entry per participant. *)
Lemma startConversation_creates (st : Store) (userId itemId : string) (now1 now2 : N)
    (it : Item.t) :
  let participants := sort_by String.leb [userId; Item.userId it] in
  let cid := conversationId_of participants itemId in
  let c := Conversation.mk cid itemId participants now1 now2 in
  get_item st itemId = Some it ->
  get_conversation st cid = None ->
  exists st',
    startConversation st userId itemId now1 now2 = (Json c, st')
    /\ get_conversation st' cid = Some c
    /\ st' !! ("userConversation:" +:+ userId +:+ ":" +:+ cid) = Some (VId cid)
    /\ st' !! ("userConversation:" +:+ Item.userId it +:+ ":" +:+ cid) = Some (VId cid)
    /\ (forall k, starts_with "userConversation:" k = false ->
                  k <> "conversation:" +:+ cid -> st' !! k = st !! k).
Proof.
  intros participants cid c Hit Hnone. unfold startConversation.
  rewrite Hit. fold participants. fold cid. rewrite Hnone. fold c.
  eexists. split; [reflexivity|]. split; [|split; [|split]].
  - kv_simpl. reflexivity.
  - unfold kv.set. rewrite lookup_insert.
    case_decide as E; [reflexivity|]. now rewrite lookup_insert_eq.
  - unfold kv.set. now rewrite lookup_insert_eq.
  - intros k Hk Hne. unfold kv.set.
    rewrite !lookup_insert_ne; auto;
      intros <-; simpl in Hk; discriminate Hk.
Qed.

(** C5. For an item [I] that exists (owned by some user B), two calls of
    [startConversation] by the same caller answer with the same conversation
    (hence the same id), whatever the clock shows at the second call; the
    second call leaves the store exactly as the first one left it (no record,
    timestamp or index entry is written), the record is the one stored under
    the derived conversation key, and no other conversation key was touched. *)
Theorem startConversation_idempotent (st : Store) (A I : string) (it : Item.t)
    (now1 now2 now3 now4 : N) :
  get_item st I = Some it ->
  let cid := conversationId_of (sort_by String.leb [A; Item.userId it]) I in
  exists c st1,
    startConversation st A I now1 now2 = (Json c, st1)
    /\ startConversation st1 A I now3 now4 = (Json c, st1)
    /\ get_conversation st1 cid = Some c
    /\ (forall k, starts_with "conversation:" k = true ->
                  k <> "conversation:" +:+ cid -> st1 !! k = st !! k).
Proof.
  intros Hit cid.
  destruct (get_conversation st cid) as [existing|] eqn:Hc.
  - exists existing, st.
    assert (Hcall : forall n1 n2, startConversation st A I n1 n2 = (Json existing, st)).
    { intros. unfold startConversation. rewrite Hit. fold cid. now rewrite Hc. }
    rewrite !Hcall. auto.
  - destruct (startConversation_creates st A I now1 now2 it Hit Hc)
      as (st1 & Hrun & Hget & _ & _ & Hframe).
    fold cid in Hrun, Hget, Hframe.
    eexists; exists st1. split; [exact Hrun|]. split; [|split; [exact Hget|]].
    + unfold startConversation.
      assert (Hit1 : get_item st1 I = Some it).
      { unfold get_item, kv.get in *.
        rewrite Hframe; [exact Hit|reflexivity|key_neq]. }
      rewrite Hit1. fold cid. now rewrite Hget.
    + intros k Hk Hne. apply Hframe; auto.
      destruct k as [|a k]; [discriminate|]. cbn [starts_with] in *.
      destruct (Ascii.eqb_spec "c" a) as [<-|]; [reflexivity|discriminate].
Qed.

Lemma startConversation_idempotent_witness :
  exists c st1,
    startConversation store_with_item "A" "item-1" 100 100 = (Json c, st1)
    /\ startConversation st1 "A" "item-1" 250 250 = (Json c, st1)
    /\ Conversation.id c = "A_B_item-1".
Proof.
  destruct (startConversation_idempotent store_with_item "A" "item-1" backpack
              100 100 250 250 eq_refl) as (c & st1 & H1 & H2 & _).
  exists c, st1. split; [exact H1|]. split; [exact H2|].
  pose proof (f_equal fst H1) as Hc. vm_compute in Hc.
  injection Hc as <-. reflexivity.
Defined.

(** C7 (as stated) fails: the owner of an item can open a conversation about
    it, and the stored participant pair then holds the same id twice. *)
Lemma participants_not_distinct_for_owner :
  let r := startConversation store_with_item "B" "item-1" 100 100 in
  let c := Conversation.mk "B_B_item-1" "item-1" ["B"; "B"] 100 100 in
  fst r = Json c
  /\ get_conversation (snd r) "B_B_item-1" = Some c
  /\ ~ NoDup (Conversation.participants c).
Proof.
  split; [vm_compute; reflexivity|]. split; [vm_compute; reflexivity|].
  simpl. intros H. apply NoDup_cons_1_1 in H. apply H. now left.
Qed.

(** C7, amended. Every conversation that [startConversation] creates stores
    a participant array of exactly two entries, the caller and the item's
    owner in ascending order; the two entries are distinct exactly when the
    caller is not the owner of the item. *)
Theorem startConversation_participants (st : Store) (userId itemId : string)
    (now1 now2 : N) (it : Item.t) :
  get_item st itemId = Some it ->
  get_conversation st
    (conversationId_of (sort_by String.leb [userId; Item.userId it]) itemId) = None ->
  exists c st',
    startConversation st userId itemId now1 now2 = (Json c, st')
    /\ get_conversation st' (Conversation.id c) = Some c
    /\ length (Conversation.participants c) = 2%nat
    /\ (Conversation.participants c = [userId; Item.userId it]
        \/ Conversation.participants c = [Item.userId it; userId])
    /\ (forall a b, Conversation.participants c = [a; b] -> String.leb a b = true)
    /\ (NoDup (Conversation.participants c) <-> userId <> Item.userId it).
Proof.
  intros Hit Hnone.
  destruct (startConversation_creates st userId itemId now1 now2 it Hit Hnone)
    as (st' & Hrun & Hget & _).
  eexists; exists st'. split; [exact Hrun|]. split; [exact Hget|].
  cbn [Conversation.participants]. rewrite sort_pair.
  destruct (String.leb userId (Item.userId it)) eqn:Hle.
  - split; [reflexivity|]. split; [now left|]. split.
    + now intros a b [= <- <-].
    + rewrite NoDup_cons, list_elem_of_singleton.
      split; [tauto|intros H; split; [exact H|apply NoDup_singleton]].
  - split; [reflexivity|]. split; [now right|]. split.
    + intros a b [= <- <-].
      destruct (String.leb_total userId (Item.userId it)); congruence.
    + rewrite NoDup_cons, list_elem_of_singleton.
      split; [intros [H _] E; now apply H|].
      intros H; split; [congruence|apply NoDup_singleton].
Qed.

Lemma startConversation_participants_witness :
  exists c st',
    startConversation store_with_item "A" "item-1" 100 100 = (Json c, st')
    /\ NoDup (Conversation.participants c).
Proof.
  destruct (startConversation_participants store_with_item "A" "item-1" 100 100
              backpack eq_refl eq_refl) as (c & st' & H1 & _ & _ & _ & _ & H2).
  exists c, st'. split; [exact H1|]. apply H2. discriminate.
Defined.

(** C8 at the failing input: the clock ticks between the two [new Date()] of
    the object literal.  The record is created and indexed for both
    participants, but its [createdAt] and [lastMessageAt] differ. *)
Theorem startConversation_reads_clock_twice :
  let r := startConversation store_with_item "A" "item-1" 1000 1001 in
  let c := Conversation.mk "A_B_item-1" "item-1" ["A"; "B"] 1000 1001 in
  get_conversation store_with_item "A_B_item-1" = None
  /\ fst r = Json c
  /\ get_conversation (snd r) "A_B_item-1" = Some c
  /\ snd r !! "userConversation:A:A_B_item-1" = Some (VId "A_B_item-1")
  /\ snd r !! "userConversation:B:A_B_item-1" = Some (VId "A_B_item-1")
  /\ Conversation.createdAt c <> Conversation.lastMessageAt c.
Proof.
  repeat split; try (vm_compute; reflexivity). discriminate.
Qed.

(** ** Sending a message *)

(** What a send by a participant does, whatever the text: the message is
    stored under its id and the conversation record is rewritten with
    [lastMessageAt] set to the message's [createdAt]. *)
Lemma send_by_participant (st : Store) (userId conversationId text : string)
    (now : N) (uuid : string) (created : N) (c : Conversation.t) :
  get_conversation st conversationId = Some c ->
  includes (Conversation.participants c) userId = true ->
  let m := Message.mk (messageId_of conversationId now uuid) conversationId
                      userId text created in
  send st userId conversationId text now uuid created
  = (Json m,
     <["conversation:" +:+ conversationId :=
         VConversation (Conversation.with_lastMessageAt c created)]>
       (<["message:" +:+ Message.id m := VMessage m]> st)).
Proof.
  intros Hc Hin m. unfold send. now rewrite Hc, Hin.
Qed.

Lemma send_Json_inv (st st' : Store) (userId conversationId text : string)
    (now : N) (uuid : string) (created : N) (m : Message.t) :
  send st userId conversationId text now uuid created = (Json m, st') ->
  exists c, get_conversation st conversationId = Some c
            /\ includes (Conversation.participants c) userId = true.
Proof.
  unfold send. destruct (get_conversation st conversationId) as [c|]; [|discriminate].
  destruct (includes _ userId) eqn:Hin; simpl; [|discriminate]. eauto.
Qed.

(** C1 at the failing inputs: a participant posts the empty text, and a text
    of blanks only.  The route performs no check of [text]: both calls are
    answered with the message (status 200) and the message is stored. *)
Theorem send_blank_text_is_persisted :
  let m_empty := Message.mk "A_B_item-1:3000:u-1" "A_B_item-1" "A" EmptyString 3000 in
  let m_blank := Message.mk "A_B_item-1:3000:u-1" "A_B_item-1" "A" "   " 3000 in
  let r1 := send store_with_conversation "A" "A_B_item-1" EmptyString 3000 "u-1" 3000 in
  let r2 := send store_with_conversation "A" "A_B_item-1" "   " 3000 "u-1" 3000 in
  blank EmptyString = true /\ blank "   " = true
  /\ store_with_conversation !! "message:A_B_item-1:3000:u-1" = None
  /\ fst r1 = Json m_empty
  /\ snd r1 !! "message:A_B_item-1:3000:u-1" = Some (VMessage m_empty)
  /\ fst r2 = Json m_blank
  /\ snd r2 !! "message:A_B_item-1:3000:u-1" = Some (VMessage m_blank).
Proof.
  repeat split; vm_compute; reflexivity.
Qed.

(** The answer of the route does not depend on the text at all. *)
Lemma send_ignores_text (st : Store) (userId conversationId text text' : string)
    (now : N) (uuid : string) (created : N) :
  match fst (send st userId conversationId text now uuid created),
        fst (send st userId conversationId text' now uuid created) with
  | Json m, Json m' => Message.id m = Message.id m'
  | Error status e, Error status' e' => status = status' /\ e = e'
  | _, _ => False
  end.
Proof.
  unfold send. destruct (get_conversation st conversationId) as [c|]; [|now split].
  destruct (includes _ userId); simpl; [reflexivity|now split].
Qed.

(** The guard against blank messages exists on the client only: the send
    form posts no request for a text that trims to the empty string. *)
Lemma handleSendMessage_never_blank (conversationId : option string)
    (newMessage cid text : string) :
  handleSendMessage conversationId newMessage = Some (cid, text) ->
  text = newMessage /\ blank text = false.
Proof.
  unfold handleSendMessage. destruct conversationId as [c|]; [|discriminate].
  destruct (String.eqb c EmptyString); [discriminate|].
  destruct (blank newMessage) eqn:Hb; [discriminate|].
  now intros [= <- <-].
Qed.

(** C6. A send by a caller who is not among the participants of the
    conversation is answered 403 and leaves the store as it was: no message
    is stored and the conversation record is not rewritten. *)
Theorem send_not_participant_forbidden (st : Store)
    (userId conversationId text : string) (now : N) (uuid : string) (created : N)
    (c : Conversation.t) :
  get_conversation st conversationId = Some c ->
  includes (Conversation.participants c) userId = false ->
  send st userId conversationId text now uuid created
  = (Error 403 "Unauthorized - Not a participant", st).
Proof.
  intros Hc Hout. unfold send. now rewrite Hc, Hout.
Qed.

Lemma send_not_participant_forbidden_witness :
  send store_with_conversation "C" "A_B_item-1" "Is this yours?" 3000 "u-1" 3000
  = (Error 403 "Unauthorized - Not a participant", store_with_conversation).
Proof.
  apply (send_not_participant_forbidden store_with_conversation "C" "A_B_item-1"
           "Is this yours?" 3000 "u-1" 3000
           (Conversation.mk "A_B_item-1" "item-1" ["A"; "B"] 2000 2000));
    reflexivity.
Defined.

(** C2 (as stated) fails: the route overwrites [lastMessageAt] and takes no
    maximum.  A send whose clock reading is behind the stored values (the
    clock was set back, or the request is served by a host whose clock is
    behind) moves [lastMessageAt] backward, below [createdAt]. *)
Lemma lastMessageAt_moves_backward :
  exists c m st' c',
    get_conversation store_with_conversation "A_B_item-1" = Some c
    /\ send store_with_conversation "A" "A_B_item-1" "Is this yours?" 1000 "u-1" 1000
       = (Json m, st')
    /\ get_conversation st' "A_B_item-1" = Some c'
    /\ Conversation.lastMessageAt c' < Conversation.lastMessageAt c
    /\ Conversation.lastMessageAt c' < Conversation.createdAt c'.
Proof.
  exists (Conversation.mk "A_B_item-1" "item-1" ["A"; "B"] 2000 2000),
         (Message.mk "A_B_item-1:1000:u-1" "A_B_item-1" "A" "Is this yours?" 1000).
  eexists. exists (Conversation.mk "A_B_item-1" "item-1" ["A"; "B"] 2000 1000).
  split; [vm_compute; reflexivity|]. split; [reflexivity|].
  split; [vm_compute; reflexivity|]. split; reflexivity.
Qed.

(** The route is its three steps run without interruption. *)
Lemma send_steps (st : Store) (userId conversationId text : string)
    (now : N) (uuid : string) (created : N) :
  send st userId conversationId text now uuid created
  = match send_read st userId conversationId with
    | Error status e => (Error status e, st)
    | Json conversation =>
        let message := Message.mk (messageId_of conversationId now uuid)
                                  conversationId userId text created in
        (Json message,
         send_write_conversation (send_write_message st message)
           conversationId conversation message)
    end.
Proof.
  unfold send, send_read.
  destruct (get_conversation st conversationId) as [c|]; [|reflexivity].
  now destruct (negb _).
Qed.

(** The same failure on a clock that never goes back, when two sends race:
    A's request has read the conversation and written its message (clock
    3000) when B's request is served as a whole (clock 3001); A's request
    then writes the conversation it had read, and [lastMessageAt] goes from
    3001 back to 3000. *)
Lemma lastMessageAt_moves_backward_in_race :
  let cid := "A_B_item-1" in
  let c0 := Conversation.mk cid "item-1" ["A"; "B"] 2000 2000 in
  let m1 := Message.mk (messageId_of cid 3000 "u-1") cid "A" "Is this yours?" 3000 in
  let st1 := send_write_message store_with_conversation m1 in
  let st2 := snd (send st1 "B" cid "Yes!" 3001 "u-2" 3001) in
  let st3 := send_write_conversation st2 cid c0 m1 in
  send_read store_with_conversation "A" cid = Json c0
  /\ get_conversation st2 cid = Some (Conversation.with_lastMessageAt c0 3001)
  /\ get_conversation st3 cid = Some (Conversation.with_lastMessageAt c0 3000).
Proof.
  repeat split; vm_compute; reflexivity.
Qed.

(** C2, amended. After each successful send the stored conversation is the
    previous record with [lastMessageAt] replaced by the [createdAt] of the
    message just persisted (the last write wins; no maximum is taken).
    Hence [lastMessageAt] does not decrease, and stays at or above
    [createdAt], whenever the clock reading of the send is not behind the
    previous [lastMessageAt]. *)
Theorem send_sets_lastMessageAt (st st' : Store) (userId conversationId text : string)
    (now : N) (uuid : string) (created : N) (m : Message.t) :
  send st userId conversationId text now uuid created = (Json m, st') ->
  exists c c',
    get_conversation st conversationId = Some c
    /\ get_conversation st' conversationId = Some c'
    /\ c' = Conversation.with_lastMessageAt c (Message.createdAt m)
    /\ Message.createdAt m = created
    /\ Conversation.lastMessageAt c' = Message.createdAt m
    /\ Conversation.createdAt c' = Conversation.createdAt c
    /\ (Conversation.lastMessageAt c <= created ->
        Conversation.lastMessageAt c <= Conversation.lastMessageAt c'
        /\ (Conversation.createdAt c <= Conversation.lastMessageAt c ->
            Conversation.createdAt c' <= Conversation.lastMessageAt c')).
Proof.
  intros Hsend.
  destruct (send_Json_inv _ _ _ _ _ _ _ _ _ Hsend) as (c & Hc & Hin).
  rewrite (send_by_participant st userId conversationId text now uuid created c Hc Hin)
    in Hsend.
  injection Hsend as <- <-.
  exists c, (Conversation.with_lastMessageAt c created).
  split; [exact Hc|]. split; [kv_simpl; reflexivity|].
  repeat (split; [reflexivity|]). cbn. lia.
Qed.

Lemma send_sets_lastMessageAt_witness :
  exists c',
    get_conversation
      (snd (send store_with_conversation "B" "A_B_item-1" "Yes!" 3000 "u-2" 3001))
      "A_B_item-1" = Some c'
    /\ Conversation.lastMessageAt c' = 3001.
Proof.
  destruct (send_sets_lastMessageAt store_with_conversation
              (snd (send store_with_conversation "B" "A_B_item-1" "Yes!" 3000 "u-2" 3001))
              "B" "A_B_item-1" "Yes!" 3000 "u-2" 3001
              (Message.mk "A_B_item-1:3000:u-2" "A_B_item-1" "B" "Yes!" 3001)
              eq_refl)
    as (c & c' & _ & H2 & _ & _ & H5 & _).
  exists c'. split; [exact H2|exact H5].
Defined.

Lemma last_cons_default (x d : N) (l : list N) :
  List.last (x :: l) d = List.last l x.
Proof.
  revert x d. induction l as [|y l IH]; intros x d; [reflexivity|].
  change (List.last (x :: y :: l) d) with (List.last (y :: l) d).
  now rewrite !(IH y).
Qed.

(** X25. After any number of sends by participants, served one after the
    other, [lastMessageAt] is the [createdAt] of the last message persisted
    (the value it had before, when nothing was sent); the rest of the
    conversation record is unchanged. *)
Lemma send_all_lastMessageAt (cid : string) (calls : list SendCall) :
  forall (st : Store) (c : Conversation.t),
  get_conversation st cid = Some c ->
  (forall call, In call calls ->
                includes (Conversation.participants c) (caller call) = true) ->
  get_conversation (snd (send_all st cid calls)) cid
  = Some (Conversation.with_lastMessageAt c
            (List.last (map created calls) (Conversation.lastMessageAt c))).
Proof.
  induction calls as [|call calls IH]; intros st c Hc Hin.
  - simpl. rewrite Hc. now destruct c.
  - cbn [send_all]. unfold send_call.
    rewrite (send_by_participant st _ cid _ _ _ _ c Hc (Hin call (or_introl eq_refl))).
    set (st1 := <[_ := _]> _).
    assert (Hc1 : get_conversation st1 cid
                  = Some (Conversation.with_lastMessageAt c (created call))).
    { unfold st1. kv_simpl. reflexivity. }
    specialize (IH st1 _ Hc1 (fun call' H => Hin call' (or_intror H))).
    destruct (send_all st1 cid calls) as [rs st2]. cbn [snd] in *.
    rewrite IH. cbn [map]. now rewrite last_cons_default.
Qed.

(** ** Freshness of conversations along a run *)

Lemma get_conversation_set (st : Store) (k : string) (v : Value) (cid : string) :
  get_conversation (kv.set k v st) cid
  = if decide (k = "conversation:" +:+ cid)
    then match v with VConversation c => Some c | _ => None end
    else get_conversation st cid.
Proof.
  unfold get_conversation, kv.get, kv.set. rewrite lookup_insert.
  now destruct (decide (k = "conversation:" +:+ cid)).
Qed.

Lemma get_conversation_set_other (st : Store) (k : string) (v : Value) (cid : string) :
  starts_with "conversation:" k = false ->
  get_conversation (kv.set k v st) cid = get_conversation st cid.
Proof.
  intros Hk. rewrite get_conversation_set.
  destruct (decide (k = "conversation:" +:+ cid)) as [->|]; [|reflexivity].
  discriminate Hk.
Qed.



(** ** The stable sort *)

Section SortFacts.
Context {A : Type} (le : A -> A -> bool).

Lemma insert_sorted_Permutation (x : A) (l : list A) :
  Permutation (insert_sorted le x l) (x :: l).
Proof.
  induction l as [|y l IH]; simpl; [reflexivity|].
  destruct (le x y); [reflexivity|].
  rewrite IH. apply perm_swap.
Qed.

Lemma sort_by_Permutation (l : list A) : Permutation (sort_by le l) l.
Proof.
  induction l as [|x l IH]; simpl; [reflexivity|].
  rewrite insert_sorted_Permutation. now rewrite IH.
Qed.

Hypothesis le_total : forall a b, le a b = true \/ le b a = true.
Hypothesis le_trans : forall a b c, le a b = true -> le b c = true -> le a c = true.

Lemma insert_sorted_StronglySorted (x : A) (l : list A) :
  StronglySorted (fun a b => le a b = true) l ->
  StronglySorted (fun a b => le a b = true) (insert_sorted le x l).
Proof.
  induction 1 as [|y l Hl IH Hy]; simpl.
  - repeat constructor.
  - destruct (le x y) eqn:Hxy.
    + constructor; [now constructor|].
      constructor; [exact Hxy|].
      eapply List.Forall_impl; [|exact Hy]. intros z Hz. eauto.
    + constructor; [exact IH|].
      rewrite insert_sorted_Permutation. constructor; [|exact Hy].
      destruct (le_total x y); congruence.
Qed.

Lemma sort_by_StronglySorted (l : list A) :
  StronglySorted (fun a b => le a b = true) (sort_by le l).
Proof.
  induction l as [|x l IH]; simpl; [constructor|].
  now apply insert_sorted_StronglySorted.
Qed.
End SortFacts.

Lemma StronglySorted_weaken {A : Type} (R S : A -> A -> Prop) (l : list A) :
  (forall a b, R a b -> S a b) -> StronglySorted R l -> StronglySorted S l.
Proof.
  intros HRS. induction 1 as [|a l _ IH Ha]; constructor; [exact IH|].
  eapply List.Forall_impl; [|exact Ha]. intros b. apply HRS.
Qed.

(** A list sorted strictly by a key is the only sorted arrangement of its
    elements: sorting any permutation of it gives it back. *)
Section SortUnique.
Context {A : Type} (key : A -> N).

Lemma sorted_Permutation_unique (l1 l2 : list A) :
  StronglySorted (fun a b => key a < key b) l1 ->
  StronglySorted (fun a b => (key a <=? key b) = true) l2 ->
  Permutation l1 l2 -> l1 = l2.
Proof.
  intros H1. revert l2. induction H1 as [|a l1 Hl1 IH Ha]; intros l2 H2 Hp.
  - now apply Permutation_nil in Hp.
  - destruct H2 as [|b l2 Hl2 Hb].
    + symmetry in Hp. now apply Permutation_nil in Hp.
    + assert (a = b) as <-.
      { assert (Hin_a : In a (b :: l2)).
        { eapply Permutation_in; [exact Hp|now left]. }
        assert (Hin_b : In b (a :: l1)).
        { eapply Permutation_in; [symmetry; exact Hp|now left]. }
        destruct Hin_a as [->|Hin_a]; [reflexivity|].
        destruct Hin_b as [->|Hin_b]; [reflexivity|].
        rewrite List.Forall_forall in Ha, Hb.
        specialize (Ha _ Hin_b). specialize (Hb _ Hin_a).
        apply N.leb_le in Hb. lia. }
      f_equal. apply IH; [exact Hl2|]. eapply Permutation_cons_inv; exact Hp.
Qed.

Lemma sort_by_strictly_sorted (l l' : list A) :
  StronglySorted (fun a b => key a < key b) l ->
  Permutation l' l ->
  sort_by (fun a b => key a <=? key b) l' = l.
Proof.
  intros Hl Hp. symmetry. apply sorted_Permutation_unique; [exact Hl| |].
  - apply sort_by_StronglySorted.
    + intros a b. rewrite !N.leb_le. lia.
    + intros a b c. rewrite !N.leb_le. lia.
  - rewrite sort_by_Permutation. now symmetry.
Qed.
End SortUnique.

(** ** Reads that join users *)

(** C9 (as stated) fails for the conversation list: when the other
    participant has no user record, the route attaches what the store
    returned, so the summary is absent; no placeholder name is produced. *)
Lemma listConversations_no_placeholder :
  get_user store_with_conversation "B" = None
  /\ listConversations store_with_conversation "A"
     = Json [ {| conv := Conversation.mk "A_B_item-1" "item-1" ["A"; "B"] 2000 2000;
                 item := Some backpack;
                 otherUser := None |} ].
Proof.
  split; vm_compute; reflexivity.
Qed.

Lemma view_conversation_otherUser (st : Store) (userId cid : string)
    (v : ConversationView) (o : string) :
  view_conversation st userId cid = Some v ->
  find_other (Conversation.participants (conv v)) userId = Some o ->
  otherUser v = get_user st o.
Proof.
  unfold view_conversation.
  destruct (get_conversation st cid) as [c|]; [|discriminate].
  intros [= <-]. simpl. now intros ->.
Qed.

(** C9, amended. No read fails because a joined user is missing.  The
    message list and the item view name a missing user ["Unknown"]; the
    conversation list returns the other participant's summary as the store
    returned it, that is, absent when the user is missing. *)
Theorem reads_tolerate_missing_users (st : Store) :
  (forall viewer cid c,
      get_conversation st cid = Some c ->
      includes (Conversation.participants c) viewer = true ->
      exists out,
        listMessages st viewer cid = Json out
        /\ forall mw, In mw out ->
                      get_user st (Message.senderId (msg mw)) = None ->
                      senderName mw = "Unknown")
  /\ (forall itemId it,
        get_item st itemId = Some it ->
        get_user st (Item.userId it) = None ->
        exists v, getItem st itemId = Json v
                  /\ item_of v = it /\ userName v = "Unknown")
  /\ (forall userId,
        exists out,
          listConversations st userId = Json out
          /\ forall v o, In v out ->
               find_other (Conversation.participants (conv v)) userId = Some o ->
               get_user st o = None ->
               otherUser v = None).
Proof.
  split; [|split].
  - intros viewer cid c Hc Hin. unfold listMessages. rewrite Hc, Hin. simpl.
    eexists. split; [reflexivity|].
    intros mw Hmw Hnone. apply in_map_iff in Hmw as (m & <- & _).
    simpl in *. now rewrite Hnone.
  - intros itemId it Hit Hnone. unfold getItem. rewrite Hit, Hnone.
    eexists. repeat split.
  - intros userId. unfold listConversations. eexists. split; [reflexivity|].
    intros v o Hv Ho Hnone.
    eapply Permutation_in in Hv; [|apply sort_by_Permutation].
    apply list_elem_of_In, list_elem_of_omap in Hv as (cid & _ & Hview).
    now rewrite (view_conversation_otherUser st userId cid v o Hview Ho).
Qed.

Lemma reads_tolerate_missing_users_witness :
  listMessages store_with_message "B" "A_B_item-1"
  = Json [ {| msg := Message.mk "A_B_item-1:3000:u-1" "A_B_item-1" "A"
                                "Is this yours?" 3000;
              senderName := "Unknown" |} ]
  /\ exists out,
       listMessages store_with_message "B" "A_B_item-1" = Json out
       /\ forall mw, In mw out ->
                     get_user store_with_message (Message.senderId (msg mw)) = None ->
                     senderName mw = "Unknown".
Proof.
  split; [vm_compute; reflexivity|].
  apply (proj1 (reads_tolerate_missing_users store_with_message) "B" "A_B_item-1"
           (Conversation.mk "A_B_item-1" "item-1" ["A"; "B"] 2000 3000));
    vm_compute; reflexivity.
Defined.

(** ** Message ids *)

Lemma digit_char_code (d : N) : d < 10 -> N_of_ascii (digit_char d) = 48 + d.
Proof.
  intros Hd. unfold digit_char. apply N_ascii_embedding. lia.
Qed.

Lemma digits_value_acc_shift (s : string) (acc : N) :
  digits_value_acc acc s = acc * 10 ^ N.of_nat (String.length s) + digits_value s.
Proof.
  unfold digits_value. revert acc.
  induction s as [|c s IH]; intros acc.
  - simpl. lia.
  - cbn [digits_value_acc String.length].
    rewrite (IH (10 * acc + _)), (IH (10 * 0 + _)).
    rewrite Nat2N.inj_succ, N.pow_succ_r'. ring.
Qed.

Lemma digits_value_app (s1 s2 : string) (acc : N) :
  digits_value_acc acc (s1 +:+ s2) = digits_value_acc (digits_value_acc acc s1) s2.
Proof.
  revert acc. induction s1 as [|c s1 IH]; intros acc; simpl; [reflexivity|apply IH].
Qed.

Lemma all_digits_app (s1 s2 : string) :
  all_digits s1 -> all_digits s2 -> all_digits (s1 +:+ s2).
Proof.
  induction s1 as [|c s1 IH]; simpl; [auto|]. intros [Hc H1] H2. auto.
Qed.

Lemma digits_value_bound (s : string) :
  all_digits s -> digits_value s < 10 ^ N.of_nat (String.length s).
Proof.
  induction s as [|c s IH]; intros Hs.
  - reflexivity.
  - destruct Hs as [Hc Hs]. specialize (IH Hs).
    unfold digits_value. cbn [digits_value_acc String.length].
    rewrite digits_value_acc_shift, Nat2N.inj_succ, N.pow_succ_r'. nia.
Qed.

Lemma append_cons (c : ascii) (s t : string) : String c s +:+ t = String c (s +:+ t).
Proof. reflexivity. Qed.

Lemma append_assoc (s1 s2 s3 : string) : (s1 +:+ s2) +:+ s3 = s1 +:+ (s2 +:+ s3).
Proof.
  induction s1 as [|c s1 IH]; [reflexivity|].
  rewrite !append_cons. f_equal. exact IH.
Qed.

Lemma append_empty_r (s : string) : s +:+ EmptyString = s.
Proof.
  induction s as [|c s IH]; [reflexivity|].
  rewrite append_cons. f_equal. exact IH.
Qed.

(** With enough fuel, [digits_acc] puts the decimal digits of [n] in front
    of the accumulator. *)
Lemma digits_acc_spec (fuel : nat) : forall (n : N) (acc : string),
  n < 10 * 2 ^ N.of_nat fuel ->
  exists s, digits_acc fuel n acc = s +:+ acc
            /\ all_digits s /\ digits_value s = n.
Proof.
  assert (Hlast : forall n acc, n < 10 ->
            exists s, String (digit_char (n mod 10)) acc = s +:+ acc
                      /\ all_digits s /\ digits_value s = n).
  { intros n acc Hn. exists (String (digit_char (n mod 10)) EmptyString).
    rewrite N.mod_small by exact Hn.
    split; [reflexivity|]. unfold digits_value. simpl all_digits.
    cbn [digits_value_acc]. rewrite digit_char_code by exact Hn.
    split; [split; [lia|exact I]|lia]. }
  induction fuel as [|fuel IH]; intros n acc Hn.
  - simpl in Hn. cbn [digits_acc]. apply Hlast. lia.
  - cbn [digits_acc]. destruct (n <? 10) eqn:Hlt.
    + apply Hlast. now apply N.ltb_lt.
    + apply N.ltb_ge in Hlt.
      assert (Hmod : n mod 10 < 10) by (apply N.mod_lt; lia).
      assert (Hdiv : n = 10 * (n / 10) + n mod 10) by (apply N.div_mod; lia).
      rewrite Nat2N.inj_succ, N.pow_succ_r' in Hn.
      set (d := n mod 10) in *. set (q := n / 10) in *.
      set (p := 2 ^ N.of_nat fuel) in *. clearbody d q.
      destruct (IH q (String (digit_char d) acc)) as (s & Hs & Hd & Hv).
      { fold p. clearbody p. lia. }
      exists (s +:+ String (digit_char d) EmptyString).
      rewrite Hs, append_assoc. split; [reflexivity|]. split.
      * apply all_digits_app; [exact Hd|]. simpl.
        rewrite digit_char_code by exact Hmod. split; [lia|exact I].
      * unfold digits_value in *. rewrite digits_value_app, Hv.
        cbn [digits_value_acc]. rewrite digit_char_code by exact Hmod. lia.
Qed.

Lemma N_to_string_spec (n : N) :
  all_digits (N_to_string n) /\ digits_value (N_to_string n) = n.
Proof.
  destruct (digits_acc_spec (N.to_nat (N.size n)) n EmptyString) as (s & Hs & Hd & Hv).
  - rewrite N2Nat.id.
    pose proof (N.size_gt n). lia.
  - unfold N_to_string. rewrite Hs.
    rewrite append_empty_r. auto.
Qed.

(** Rendering is injective: different readings give different digit
    strings. *)
Lemma N_to_string_inj (a b : N) : N_to_string a = N_to_string b -> a = b.
Proof.
  intros H. rewrite <- (proj2 (N_to_string_spec a)), <- (proj2 (N_to_string_spec b)).
  now rewrite H.
Qed.

Lemma ascii_compare_refl (c : ascii) : Ascii.compare c c = Eq.
Proof. unfold Ascii.compare. apply N.compare_refl. Qed.

Lemma compare_app_prefix (p s1 s2 : string) :
  String.compare (p +:+ s1) (p +:+ s2) = String.compare s1 s2.
Proof.
  induction p as [|c p IH]; simpl; [reflexivity|].
  now rewrite ascii_compare_refl.
Qed.

(** Code-unit order on digit strings of one length is numeric order, and
    what follows the digits matters only when the digits are all equal. *)
Lemma compare_digits_then (s1 s2 r1 r2 : string) :
  all_digits s1 -> all_digits s2 ->
  String.length s1 = String.length s2 ->
  String.compare (s1 +:+ r1) (s2 +:+ r2)
  = match digits_value s1 ?= digits_value s2 with
    | Eq => String.compare r1 r2
    | o => o
    end.
Proof.
  revert s2. induction s1 as [|c1 s1 IH]; intros [|c2 s2] H1 H2 Hlen;
    try discriminate Hlen.
  - reflexivity.
  - destruct H1 as [Hc1 H1], H2 as [Hc2 H2]. injection Hlen as Hlen.
    pose proof (digits_value_bound s1 H1) as Hb1.
    pose proof (digits_value_bound s2 H2) as Hb2.
    rewrite !append_cons. cbn [String.compare]. unfold Ascii.compare, digits_value.
    cbn [digits_value_acc]. rewrite !digits_value_acc_shift, <- Hlen.
    rewrite <- Hlen in Hb2.
    set (k := 10 ^ N.of_nat (String.length s1)) in *.
    destruct (N.compare_spec (N_of_ascii c1) (N_of_ascii c2)) as [E|E|E].
    + rewrite E, (IH s2 H1 H2 Hlen).
      destruct (N.compare_spec (digits_value s1) (digits_value s2)) as [E'|E'|E'].
      * rewrite E'. now rewrite N.compare_refl.
      * replace (_ ?= _) with Lt; [reflexivity|]. symmetry. apply N.compare_lt_iff. lia.
      * replace (_ ?= _) with Gt; [reflexivity|]. symmetry. apply N.compare_gt_iff. lia.
    + replace (_ ?= _) with Lt; [reflexivity|]. symmetry. apply N.compare_lt_iff. nia.
    + replace (_ ?= _) with Gt; [reflexivity|]. symmetry. apply N.compare_gt_iff. nia.
Qed.

(** C4 (as stated) fails: two messages sent in the same millisecond get ids
    that differ in the random part only, and the message sent first can have
    the greater id. *)
Lemma message_ids_not_in_send_order :
  let r1 := send store_with_conversation "A" "A_B_item-1" "Is this yours?"
                 1714550000123 "c56a4180-65aa-42ec-a945-5fd21dec0538" 1714550000123 in
  let r2 := send (snd r1) "B" "A_B_item-1" "Yes!"
                 1714550000123 "1b4e28ba-2fa1-41d2-883f-0016d3cca427" 1714550000123 in
  let m1 := Message.mk "A_B_item-1:1714550000123:c56a4180-65aa-42ec-a945-5fd21dec0538"
                       "A_B_item-1" "A" "Is this yours?" 1714550000123 in
  let m2 := Message.mk "A_B_item-1:1714550000123:1b4e28ba-2fa1-41d2-883f-0016d3cca427"
                       "A_B_item-1" "B" "Yes!" 1714550000123 in
  fst r1 = Json m1 /\ fst r2 = Json m2
  /\ String.compare (Message.id m1) (Message.id m2) = Gt.
Proof.
  repeat split; vm_compute; reflexivity.
Qed.

(** C4, amended. For two message ids of one conversation built from clock
    readings with the same number of decimal digits, the lexicographic
    (code-unit) order of the ids is the order of the readings when the
    readings differ; for equal readings it is the order of the random
    parts, which says nothing about the order of sending. *)
Theorem messageId_order (conversationId : string) (t1 t2 : N) (u1 u2 : string) :
  String.length (N_to_string t1) = String.length (N_to_string t2) ->
  String.compare (messageId_of conversationId t1 u1) (messageId_of conversationId t2 u2)
  = match t1 ?= t2 with
    | Eq => String.compare u1 u2
    | o => o
    end.
Proof.
  intros Hlen. unfold messageId_of.
  assert (Hcolon : forall s, ":" +:+ s = String ":" s) by reflexivity.
  rewrite compare_app_prefix, !Hcolon.
  cbn [String.compare]. rewrite ascii_compare_refl.
  destruct (N_to_string_spec t1) as [Hd1 Hv1].
  destruct (N_to_string_spec t2) as [Hd2 Hv2].
  rewrite (compare_digits_then _ _ _ _ Hd1 Hd2 Hlen), Hv1, Hv2.
  destruct (t1 ?= t2); [|reflexivity|reflexivity].
  cbn [String.compare]. now rewrite ascii_compare_refl.
Qed.

Lemma messageId_order_witness :
  String.compare (messageId_of "A_B_item-1" 1714550000123 "c56a4180")
                 (messageId_of "A_B_item-1" 1714550000124 "1b4e28ba") = Lt.
Proof.
  rewrite (messageId_order "A_B_item-1" 1714550000123 1714550000124
             "c56a4180" "1b4e28ba" eq_refl).
  reflexivity.
Defined.

(** ** Prefix scans *)

(** The facts of this section hold for every order in which the store
    enumerates its entries: they describe a scan up to permutation. *)

Lemma matching_Permutation (p : string) (kvs kvs' : list (string * Value)) :
  Permutation kvs kvs' -> Permutation (kv.matching p kvs) (kv.matching p kvs').
Proof.
  unfold kv.matching. intros H. apply Permutation_map.
  induction H as [|x l l' _ IH|x y l|l l' l'' _ IH1 _ IH2]; simpl.
  - reflexivity.
  - destruct (starts_with p (fst x)); [now constructor|exact IH].
  - destruct (starts_with p (fst x)), (starts_with p (fst y));
      try reflexivity. apply perm_swap.
  - now rewrite IH1.
Qed.

Lemma getByPrefix_insert_fresh (p k : string) (v : Value) (st : Store) :
  st !! k = None ->
  Permutation (kv.getByPrefix p (<[k := v]> st))
              (if starts_with p k then v :: kv.getByPrefix p st
               else kv.getByPrefix p st).
Proof.
  intros Hk. unfold kv.getByPrefix.
  rewrite (matching_Permutation p _ _ (map_to_list_insert st k v Hk)).
  unfold kv.matching. simpl. now destruct (starts_with p k).
Qed.

Lemma getByPrefix_insert_other (p k : string) (v : Value) (st : Store) :
  starts_with p k = false ->
  Permutation (kv.getByPrefix p (<[k := v]> st)) (kv.getByPrefix p st).
Proof.
  intros Hp. destruct (st !! k) as [w|] eqn:Hk.
  - rewrite <- (insert_delete_eq st k v).
    rewrite <- (insert_delete_id st k w Hk) at 2.
    rewrite !getByPrefix_insert_fresh by apply lookup_delete_eq.
    now rewrite Hp.
  - rewrite getByPrefix_insert_fresh by exact Hk. now rewrite Hp.
Qed.

Lemma getByPrefix_lookup (p k : string) (v : Value) (st : Store) :
  st !! k = Some v -> starts_with p k = true -> In v (kv.getByPrefix p st).
Proof.
  intros Hk Hp. unfold kv.getByPrefix, kv.matching.
  apply in_map_iff. exists (k, v). split; [reflexivity|].
  apply filter_In. split; [|exact Hp].
  apply list_elem_of_In, elem_of_map_to_list. exact Hk.
Qed.

Lemma messages_of_Permutation (vs vs' : list Value) :
  Permutation vs vs' -> Permutation (messages_of vs) (messages_of vs').
Proof.
  unfold messages_of. intros H. now apply omap_Permutation.
Qed.

Lemma message_key_prefix (cid : string) (now : N) (uuid : string) :
  starts_with (message_prefix cid) ("message:" +:+ messageId_of cid now uuid) = true.
Proof.
  unfold message_prefix, messageId_of.
  replace ("message:" +:+ cid +:+ ":" +:+ N_to_string now +:+ ":" +:+ uuid)
    with (("message:" +:+ cid +:+ ":") +:+ N_to_string now +:+ ":" +:+ uuid).
  - apply starts_with_app.
  - now rewrite !append_assoc.
Qed.

Lemma ledger_send (st : Store) (cid : string) (parts : list string)
    (sent : list Message.t) (call : SendCall) :
  ledger st cid parts sent ->
  includes parts (caller call) = true ->
  ~ In (Message.id (message_of cid call)) (map Message.id sent) ->
  exists st',
    send_call st cid call = (Json (message_of cid call), st')
    /\ ledger st' cid parts (sent ++ [message_of cid call]).
Proof.
  intros [(c & Hc & Hparts) Hkeys Hscan] Hin Hfresh. subst parts.
  unfold send_call.
  rewrite (send_by_participant st _ cid _ _ _ _ c Hc Hin).
  fold (message_of cid call). set (m := message_of cid call) in *.
  eexists. split; [reflexivity|].
  assert (Hmkey : starts_with (message_prefix cid) ("message:" +:+ Message.id m) = true)
    by apply message_key_prefix.
  assert (Hckey : starts_with (message_prefix cid) ("conversation:" +:+ cid) = false)
    by reflexivity.
  assert (Hnew : st !! ("message:" +:+ Message.id m) = None).
  { destruct (st !! ("message:" +:+ Message.id m)) as [w|] eqn:Hw; [|reflexivity].
    destruct (Hkeys _ Hmkey (mk_is_Some _ _ Hw)) as (m' & Hm' & Hk).
    apply app_inj_prefix in Hk. exfalso. apply Hfresh.
    rewrite Hk. now apply in_map. }
  split.
  - exists (Conversation.with_lastMessageAt c (created call)).
    split; [|reflexivity]. kv_simpl. reflexivity.
  - intros k Hk Hsome.
    rewrite lookup_insert_ne in Hsome by (intros <-; congruence).
    rewrite lookup_insert in Hsome. case_decide as E.
    + exists m. split; [apply in_or_app; right; now left|now symmetry].
    + destruct (Hkeys k Hk Hsome) as (m' & Hm' & ->).
      exists m'. split; [apply in_or_app; now left|reflexivity].
  - eapply Permutation_trans;
      [apply messages_of_Permutation, getByPrefix_insert_other, Hckey|].
    eapply Permutation_trans;
      [apply messages_of_Permutation, getByPrefix_insert_fresh, Hnew|].
    rewrite Hmkey.
    change (Permutation (m :: messages_of (kv.getByPrefix (message_prefix cid) st))
                        (sent ++ [m])).
    eapply Permutation_trans; [apply perm_skip, Hscan|].
    apply Permutation_cons_append.
Qed.

Lemma ledger_send_all (cid : string) (parts : list string) (calls : list SendCall) :
  forall (st : Store) (sent : list Message.t),
  ledger st cid parts sent ->
  (forall call, In call calls -> includes parts (caller call) = true) ->
  NoDup (map Message.id (sent ++ map (message_of cid) calls)) ->
  fst (send_all st cid calls) = map (fun call => Json (message_of cid call)) calls
  /\ ledger (snd (send_all st cid calls)) cid parts (sent ++ map (message_of cid) calls).
Proof.
  induction calls as [|call calls IH]; intros st sent Hl Hin Hnd.
  - simpl. rewrite app_nil_r. auto.
  - assert (Hfresh : ~ In (Message.id (message_of cid call)) (map Message.id sent)).
    { rewrite map_app in Hnd. simpl in Hnd.
      apply NoDup_ListNoDup, NoDup_remove_2 in Hnd.
      intros H. apply Hnd, in_or_app. now left. }
    destruct (ledger_send st cid parts sent call Hl (Hin call (or_introl eq_refl)) Hfresh)
      as (st' & Hsend & Hl').
    cbn [send_all]. rewrite Hsend.
    destruct (IH st' (sent ++ [message_of cid call])%list Hl') as [Hrs Hfinal].
    + intros call' Hcall'. apply Hin. now right.
    + now rewrite <- app_assoc.
    + destruct (send_all st' cid calls) as [rs st2]. simpl in *.
      rewrite Hrs. split; [reflexivity|]. now rewrite <- app_assoc in Hfinal.
Qed.

(** ** Reading the messages of a conversation *)

(** Two sends of one millisecond by participants leave the same store in
    either order: the two message keys are written in both, and the
    conversation record ends with the same [lastMessageAt]. *)
Lemma same_ms_sends_commute (st : Store) (cid : string) (c : Conversation.t)
    (a b : SendCall) :
  get_conversation st cid = Some c ->
  includes (Conversation.participants c) (caller a) = true ->
  includes (Conversation.participants c) (caller b) = true ->
  created a = created b ->
  Message.id (message_of cid a) <> Message.id (message_of cid b) ->
  snd (send_all st cid [a; b]) = snd (send_all st cid [b; a]).
Proof.
  intros Hc Ha Hb Hab Hne.
  assert (Hstep : forall x y st1,
            includes (Conversation.participants c) x.(caller) = true ->
            includes (Conversation.participants c) y.(caller) = true ->
            get_conversation st1 cid = Some c ->
            snd (send_all st1 cid [x; y])
            = <["conversation:" +:+ cid :=
                  VConversation (Conversation.with_lastMessageAt c (created y))]>
                (<["message:" +:+ Message.id (message_of cid y) :=
                     VMessage (message_of cid y)]>
                   (<["message:" +:+ Message.id (message_of cid x) :=
                        VMessage (message_of cid x)]> st1))).
  { intros x y st1 Hx Hy Hc1. cbn [send_all]. unfold send_call.
    rewrite (send_by_participant st1 _ cid _ _ _ _ c Hc1 Hx).
    erewrite send_by_participant;
      [|kv_simpl; reflexivity|exact Hy].
    cbn [snd]. fold (message_of cid x). fold (message_of cid y).
    rewrite (insert_insert_ne _ ("message:" +:+ _) ("conversation:" +:+ _))
      by key_neq.
    now rewrite insert_insert_eq. }
  rewrite (Hstep a b st Ha Hb Hc), (Hstep b a st Hb Ha Hc), Hab.
  f_equal. apply insert_insert_ne.
  intros H. apply app_inj_prefix in H. congruence.
Qed.

(** C3 (as stated) fails.  Two messages are sent within one millisecond, in
    one run as "Is this yours?" then "Yes!", in another run in the opposite
    order.  All sends succeed and both runs leave the same store, so the
    read, which sees the store only, returns the same list for both: it
    cannot give the order sent in both runs, whatever order the scan has.
    With the enumeration order of the embedding, the second run is listed
    in the reverse of the order sent, which there is also the order of the
    ids. *)
Lemma listMessages_not_in_order_sent :
  let m_hi := message_of "A_B_item-1" call_hi in
  let m_yes := message_of "A_B_item-1" call_yes in
  fst run_hi_yes = [Json m_hi; Json m_yes]
  /\ fst run_yes_hi = [Json m_yes; Json m_hi]
  /\ snd run_hi_yes = snd run_yes_hi
  /\ listed (listMessages (snd run_yes_hi) "A" "A_B_item-1") = [m_hi; m_yes]
  /\ ~ (listed (listMessages (snd run_hi_yes) "A" "A_B_item-1") = [m_hi; m_yes]
        /\ listed (listMessages (snd run_yes_hi) "A" "A_B_item-1") = [m_yes; m_hi]).
Proof.
  assert (Hsame : snd run_hi_yes = snd run_yes_hi).
  { apply (same_ms_sends_commute store_with_conversation "A_B_item-1"
             (Conversation.mk "A_B_item-1" "item-1" ["A"; "B"] 2000 2000));
      try (vm_compute; reflexivity).
    intros H. vm_compute in H. discriminate H. }
  split; [vm_compute; reflexivity|]. split; [vm_compute; reflexivity|].
  split; [exact Hsame|]. split; [vm_compute; reflexivity|].
  rewrite Hsame. intros [H1 H2]. rewrite H1 in H2.
  vm_compute in H2. discriminate H2.
Qed.

Lemma map_msg_with_names (f : Message.t -> string) (l : list Message.t) :
  map msg (map (fun m => {| msg := m; senderName := f m |}) l) = l.
Proof.
  induction l as [|m l IH]; simpl; [reflexivity|now rewrite IH].
Qed.

(** C3, amended. Take a conversation without stored messages and any
    sequence of sends on it by participants whose generated ids are pairwise
    distinct.  All the sends succeed, and a read by a participant returns
    exactly the messages sent, sorted ascending by [createdAt]; no
    tie-break by id is applied.  When the [createdAt] readings of the sends
    are strictly increasing, the read returns the messages in the exact
    order sent. *)
Theorem listMessages_sorted_by_createdAt (st0 : Store) (cid : string)
    (c : Conversation.t) (calls : list SendCall) (viewer : string) :
  get_conversation st0 cid = Some c ->
  kv.getByPrefix (message_prefix cid) st0 = [] ->
  (forall call, In call calls ->
                includes (Conversation.participants c) (caller call) = true) ->
  includes (Conversation.participants c) viewer = true ->
  NoDup (map (fun call => messageId_of cid (id_now call) (id_uuid call)) calls) ->
  let sent := map (message_of cid) calls in
  let st := snd (send_all st0 cid calls) in
  fst (send_all st0 cid calls) = map Json sent
  /\ exists out,
      listMessages st viewer cid = Json out
      /\ Permutation (map msg out) sent
      /\ StronglySorted
           (fun a b => Message.createdAt a <= Message.createdAt b) (map msg out)
      /\ (StronglySorted (fun a b => created a < created b) calls ->
          map msg out = sent).
Proof.
  intros Hc Hempty Hin Hviewer Hnd sent st.
  assert (Hl0 : ledger st0 cid (Conversation.participants c) []).
  { split.
    - eauto.
    - intros k Hk [v Hv]. pose proof (getByPrefix_lookup _ _ _ _ Hv Hk) as Hv'.
      rewrite Hempty in Hv'. destruct Hv'.
    - now rewrite Hempty. }
  destruct (ledger_send_all cid (Conversation.participants c) calls st0 [] Hl0 Hin)
    as [Hrs [(c' & Hc' & Hparts) _ Hscan]].
  { change (NoDup (map Message.id (map (message_of cid) calls))).
    now rewrite map_map. }
  simpl in Hscan. fold st in Hc', Hscan. fold sent in Hscan.
  split; [unfold sent; now rewrite Hrs, map_map|].
  unfold listMessages. rewrite Hc', Hparts, Hviewer. simpl negb. cbv iota.
  eexists. split; [reflexivity|]. rewrite map_msg_with_names.
  split; [|split].
  - now rewrite sort_by_Permutation.
  - eapply StronglySorted_weaken;
      [|apply (sort_by_StronglySorted by_createdAt)].
    + intros a b Hab. now apply N.leb_le.
    + intros a b. unfold by_createdAt. rewrite !N.leb_le. lia.
    + intros a b d. unfold by_createdAt. rewrite !N.leb_le. lia.
  - intros Hsorted.
    apply (sort_by_strictly_sorted Message.createdAt); [|exact Hscan].
    unfold sent. clear -Hsorted.
    induction Hsorted as [|call calls _ IH Hall]; simpl; constructor; [exact IH|].
    rewrite List.Forall_forall in *. intros m Hm.
    apply in_map_iff in Hm as (call' & <- & Hcall'). now apply Hall.
Qed.

Lemma listMessages_sorted_by_createdAt_witness :
  exists out,
    listMessages
      (snd (send_all store_with_conversation "A_B_item-1"
              [ {| caller := "A"; body := "Is this yours?"; id_now := 3000;
                   id_uuid := "u-1"; created := 3000 |};
                {| caller := "B"; body := "Yes!"; id_now := 3001;
                   id_uuid := "u-2"; created := 3001 |} ]))
      "B" "A_B_item-1" = Json out
    /\ map msg out
       = [ Message.mk "A_B_item-1:3000:u-1" "A_B_item-1" "A" "Is this yours?" 3000;
           Message.mk "A_B_item-1:3001:u-2" "A_B_item-1" "B" "Yes!" 3001 ].
Proof.
  destruct (listMessages_sorted_by_createdAt store_with_conversation "A_B_item-1"
              (Conversation.mk "A_B_item-1" "item-1" ["A"; "B"] 2000 2000)
              [ {| caller := "A"; body := "Is this yours?"; id_now := 3000;
                   id_uuid := "u-1"; created := 3000 |};
                {| caller := "B"; body := "Yes!"; id_now := 3001;
                   id_uuid := "u-2"; created := 3001 |} ]
              "B")
    as (_ & out & Hout & _ & _ & Horder).
  - vm_compute; reflexivity.
  - vm_compute; reflexivity.
  - intros call [<-|[<-|[]]]; reflexivity.
  - reflexivity.
  - apply NoDup_cons. split; [|apply NoDup_singleton].
    rewrite list_elem_of_singleton. vm_compute. discriminate.
  - exists out. split; [exact Hout|]. rewrite Horder.
    + vm_compute; reflexivity.
    + repeat constructor; reflexivity.
Defined.

(** * Further properties of the routes *)

(** ** Keys and scans *)

Lemma index_key_prefix (p u x : string) :
  starts_with (p +:+ u +:+ ":") (p +:+ u +:+ ":" +:+ x) = true.
Proof.
  replace (p +:+ u +:+ ":" +:+ x) with ((p +:+ u +:+ ":") +:+ x).
  - apply starts_with_app.
  - now rewrite !append_assoc.
Qed.

Lemma In_items_of (i : Item.t) (vs : list Value) :
  In i (items_of vs) <-> In (VItem i) vs.
Proof.
  unfold items_of. rewrite <- !list_elem_of_In, list_elem_of_omap. split.
  - intros (v & Hv & Hi). destruct v; try discriminate Hi. now injection Hi as <-.
  - intros Hv. exists (VItem i). auto.
Qed.

Lemma In_ids_of (s : string) (vs : list Value) :
  In s (ids_of vs) <-> In (VId s) vs.
Proof.
  unfold ids_of. rewrite <- !list_elem_of_In, list_elem_of_omap. split.
  - intros (v & Hv & Hi). destruct v; try discriminate Hi. now injection Hi as <-.
  - intros Hv. exists (VId s). auto.
Qed.

Lemma In_messages_of (m : Message.t) (vs : list Value) :
  In m (messages_of vs) <-> In (VMessage m) vs.
Proof.
  unfold messages_of. rewrite <- !list_elem_of_In, list_elem_of_omap. split.
  - intros (v & Hv & Hi). destruct v; try discriminate Hi. now injection Hi as <-.
  - intros Hv. exists (VMessage m). auto.
Qed.

(** A value returned by a scan is stored under a key with the prefix. *)
Lemma getByPrefix_In (p : string) (v : Value) (st : Store) :
  In v (kv.getByPrefix p st) <->
  exists k, st !! k = Some v /\ starts_with p k = true.
Proof.
  split.
  - unfold kv.getByPrefix, kv.matching. intros Hv.
    apply in_map_iff in Hv as ([k v'] & <- & Hkv).
    apply filter_In in Hkv as [Hkv Hp].
    exists k. split; [|exact Hp].
    now apply elem_of_map_to_list, list_elem_of_In.
  - intros (k & Hk & Hp). now apply (getByPrefix_lookup p k).
Qed.

Lemma In_sort_by {A : Type} (le : A -> A -> bool) (x : A) (l : list A) :
  In x (sort_by le l) <-> In x l.
Proof.
  split; apply Permutation_in;
    [apply sort_by_Permutation|symmetry; apply sort_by_Permutation].
Qed.

(** ** Posting and listing items *)

(** What the route does on a complete form whose image, if any, is stored:
    [imageUrl] is the signed URL of the upload, [None] without image. *)
Lemma createItem_Json_inv (upload : string -> UploadResult) (st st' : Store)
    (userId : string) (form : ItemForm) (itemId : string) (now : N) (i : Item.t) :
  createItem upload st userId form itemId now = (Json i, st') ->
  form_complete form = true
  /\ i = Item.mk itemId (value_of (form_type form)) (value_of (form_category form))
                 (value_of (form_title form)) (value_of (form_description form))
                 (value_of (form_location form)) (value_of (form_date form))
                 (Item.imageUrl i) userId "active" now
  /\ st' = <["userItem:" +:+ userId +:+ ":" +:+ itemId := VId itemId]>
             (<["item:" +:+ itemId := VItem i]> st).
Proof.
  unfold createItem, form_complete.
  destruct (present (form_type form)), (present (form_category form)),
    (present (form_title form)), (present (form_description form)),
    (present (form_location form)), (present (form_date form));
    try discriminate.
  cbn [negb orb andb].
  destruct (form_image form) as [name|].
  - destruct (upload _); [discriminate|]. intros [= <- <-]. auto.
  - intros [= <- <-]. auto.
Qed.

Lemma createItem_reads (upload : string -> UploadResult) (st st' : Store)
    (userId : string) (form : ItemForm) (itemId : string) (now : N) (i : Item.t) :
  createItem upload st userId form itemId now = (Json i, st') ->
  get_item st' itemId = Some i
  /\ In (VItem i) (kv.getByPrefix "item:" st')
  /\ In (VId itemId) (kv.getByPrefix ("userItem:" +:+ userId +:+ ":") st')
  /\ (forall uid, get_user st' uid = get_user st uid).
Proof.
  intros H. apply createItem_Json_inv in H as (_ & _ & ->).
  assert (Hi : (<["userItem:" +:+ userId +:+ ":" +:+ itemId := VId itemId]>
                  (<["item:" +:+ itemId := VItem i]> st)) !! ("item:" +:+ itemId)
               = Some (VItem i)).
  { rewrite lookup_insert_ne by key_neq. apply lookup_insert_eq. }
  split; [|split; [|split]].
  - unfold get_item, kv.get. now rewrite Hi.
  - apply (getByPrefix_lookup _ _ _ _ Hi). reflexivity.
  - apply (getByPrefix_lookup _ ("userItem:" +:+ userId +:+ ":" +:+ itemId)).
    + apply lookup_insert_eq.
    + apply index_key_prefix.
  - intros uid. unfold get_user, kv.get.
    now rewrite !lookup_insert_ne by key_neq.
Qed.

(** X1. An item that [POST /items] has accepted is read back by
    [GET /items/:id]: the view holds the item as answered, under the id the
    route generated, with status ["active"], the caller as owner and the
    clock reading as [createdAt]; the owner's name is joined from the user
    record the store had. *)
Theorem createItem_then_getItem (upload : string -> UploadResult) (st st' : Store)
    (userId : string) (form : ItemForm) (itemId : string) (now : N) (i : Item.t) :
  createItem upload st userId form itemId now = (Json i, st') ->
  exists v,
    getItem st' itemId = Json v
    /\ item_of v = i
    /\ Item.id i = itemId
    /\ Item.status i = "active"
    /\ Item.userId i = userId
    /\ Item.createdAt i = now
    /\ userName v = name_or_unknown (get_user st userId).
Proof.
  intros H. destruct (createItem_reads _ _ _ _ _ _ _ _ H) as (Hget & _ & _ & Husers).
  apply createItem_Json_inv in H as (_ & Hi & _).
  unfold getItem. rewrite Hget. eexists. split; [reflexivity|].
  cbn [item_of userName]. rewrite Hi. cbn. rewrite Husers.
  repeat split; reflexivity.
Qed.

Lemma createItem_then_getItem_witness :
  exists v,
    getItem store_posted "item-1" = Json v
    /\ Item.title (item_of v) = "Blue Backpack"
    /\ userName v = "Unknown".
Proof.
  destruct (createItem_then_getItem upload_ok ∅ store_posted "B" backpack_form
              "item-1" 5 posted_backpack)
    as (v & Hv & Hi & _ & _ & _ & _ & Hn).
  - by_projections.
  - exists v. split; [exact Hv|]. rewrite Hi. split; [reflexivity|exact Hn].
Defined.

(** X2. An item that [POST /items] has accepted is in the caller's
    [GET /my-items]. *)
Theorem createItem_then_myItems (upload : string -> UploadResult) (st st' : Store)
    (userId : string) (form : ItemForm) (itemId : string) (now : N) (i : Item.t) :
  createItem upload st userId form itemId now = (Json i, st') ->
  exists out, myItems st' userId = Json out /\ In i out.
Proof.
  intros H. destruct (createItem_reads _ _ _ _ _ _ _ _ H) as (Hget & _ & Hidx & _).
  unfold myItems. eexists. split; [reflexivity|].
  apply In_sort_by, list_elem_of_In, list_elem_of_omap.
  exists itemId. split; [|exact Hget]. now apply list_elem_of_In, In_ids_of.
Qed.

Lemma createItem_then_myItems_witness :
  exists out,
    myItems store_posted "B" = Json out
    /\ out <> [].
Proof.
  destruct (createItem_then_myItems upload_ok ∅ store_posted "B" backpack_form
              "item-1" 5 posted_backpack)
    as (out & Hout & Hin).
  - by_projections.
  - exists out. split; [exact Hout|]. intros ->. destruct Hin.
Defined.

(** The two successive filters of [GET /items] are the one filter
    [item_matches]. *)
Lemma listItems_eq (st : Store) (type category : option string) :
  listItems st type category
  = Json (sort_by by_newest
            (List.filter (item_matches type category)
               (items_of (kv.getByPrefix "item:" st)))).
Proof.
  unfold listItems, item_matches. f_equal. f_equal.
  generalize (items_of (kv.getByPrefix "item:" st)) as l. intros l.
  destruct (present type), (present category && negb _).
  - induction l as [|i l IH]; [reflexivity|]. simpl.
    destruct (String.eqb (Item.type i) _); simpl; [|exact IH].
    destruct (String.eqb (Item.category i) _); [f_equal|]; exact IH.
  - apply filter_ext. intros i. now rewrite andb_true_r.
  - apply filter_ext. intros i. reflexivity.
  - induction l as [|i l IH]; [reflexivity|]. simpl. now f_equal.
Qed.

(** X3. [GET /items] returns the stored items that pass the filter of the
    query, each as often as the scan of the store returns it, most recent
    first.  A missing or empty [type], and a missing or empty [category] or
    the category ["all"], filter nothing. *)
Theorem listItems_filtered_sorted (st : Store) (type category : option string) :
  exists out,
    listItems st type category = Json out
    /\ Permutation out
         (List.filter (item_matches type category)
            (items_of (kv.getByPrefix "item:" st)))
    /\ StronglySorted (fun a b => Item.createdAt b <= Item.createdAt a) out
    /\ (forall i, In i out ->
          (present type = true -> Item.type i = value_of type)
          /\ (present category = true -> value_of category <> "all" ->
              Item.category i = value_of category)).
Proof.
  rewrite listItems_eq. eexists. split; [reflexivity|].
  split; [apply sort_by_Permutation|]. split.
  - eapply StronglySorted_weaken; [|apply (sort_by_StronglySorted by_newest)].
    + intros a b Hab. now apply N.leb_le.
    + intros a b. unfold by_newest. rewrite !N.leb_le. lia.
    + intros a b c. unfold by_newest. rewrite !N.leb_le. lia.
  - intros i Hi. apply In_sort_by, filter_In in Hi as [_ Hm].
    unfold item_matches in Hm. apply andb_true_iff in Hm as [Ht Hc]. split.
    + intros Hp. rewrite Hp in Ht. now apply String.eqb_eq.
    + intros Hp Hall. rewrite Hp in Hc.
      apply String.eqb_neq in Hall. rewrite Hall in Hc. now apply String.eqb_eq.
Qed.

Lemma In_listItems (st : Store) (type category : option string) (i : Item.t) :
  In (VItem i) (kv.getByPrefix "item:" st) ->
  item_matches type category i = true ->
  exists out, listItems st type category = Json out /\ In i out.
Proof.
  intros Hi Hm. rewrite listItems_eq. eexists. split; [reflexivity|].
  apply In_sort_by, filter_In. split; [now apply In_items_of|exact Hm].
Qed.

(** X4. An item that [POST /items] has accepted is in every [GET /items]
    whose filter it passes, in particular in the listing of its own type
    with category ["all"]. *)
Theorem createItem_then_listItems (upload : string -> UploadResult) (st st' : Store)
    (userId : string) (form : ItemForm) (itemId : string) (now : N) (i : Item.t) :
  createItem upload st userId form itemId now = (Json i, st') ->
  (forall type category,
      item_matches type category i = true ->
      exists out, listItems st' type category = Json out /\ In i out)
  /\ item_matches (form_type form) (Some "all") i = true
  /\ item_matches (form_type form) (form_category form) i = true.
Proof.
  intros H. destruct (createItem_reads _ _ _ _ _ _ _ _ H) as (_ & Hin & _).
  apply createItem_Json_inv in H as (Hform & Hi & _).
  split; [intros; now apply In_listItems|].
  rewrite Hi. unfold item_matches. cbn.
  rewrite !String.eqb_refl. destruct (present (form_type form)); split; try reflexivity;
    now destruct (present (form_category form) && _).
Qed.

Lemma createItem_then_listItems_witness :
  exists out,
    listItems store_posted (Some "lost") (Some "all") = Json out
    /\ out <> [].
Proof.
  destruct (createItem_then_listItems upload_ok ∅ store_posted "B" backpack_form
              "item-1" 5 posted_backpack)
    as (Hall & Hm & _).
  - by_projections.
  - destruct (Hall (Some "lost") (Some "all") Hm) as (out & Hout & Hin).
    exists out. split; [exact Hout|]. intros ->. destruct Hin.
Defined.

(** X5. The public listing does not look at the status: after the owner has
    set any status (["resolved"], say), the updated item is in every
    [GET /items] whose filter the item passed before. *)
Theorem updateItemStatus_keeps_item_listed (st : Store) (userId itemId status : string)
    (it : Item.t) (type category : option string) :
  get_item st itemId = Some it ->
  Item.userId it = userId ->
  item_matches type category it = true ->
  exists out,
    listItems (snd (updateItemStatus st userId itemId status)) type category = Json out
    /\ In (Item.with_status it status) out.
Proof.
  intros Hit <- Hm. unfold updateItemStatus. rewrite Hit, String.eqb_refl.
  cbn [negb snd]. apply In_listItems; [|exact Hm].
  apply (getByPrefix_lookup _ ("item:" +:+ itemId)); [apply lookup_insert_eq|reflexivity].
Qed.

Lemma updateItemStatus_keeps_item_listed_witness :
  exists out,
    listItems (snd (updateItemStatus store_with_item "B" "item-1" "resolved"))
              (Some "lost") None = Json out
    /\ In (Item.with_status backpack "resolved") out.
Proof.
  apply (updateItemStatus_keeps_item_listed store_with_item "B" "item-1" "resolved"
           backpack (Some "lost") None); reflexivity.
Defined.

(** X6. Of two status updates by the owner the last one wins: answer and
    store are those of the second update alone. *)
Theorem updateItemStatus_last_wins (st : Store) (userId itemId s1 s2 : string)
    (it : Item.t) :
  get_item st itemId = Some it ->
  Item.userId it = userId ->
  updateItemStatus (snd (updateItemStatus st userId itemId s1)) userId itemId s2
  = updateItemStatus st userId itemId s2.
Proof.
  intros Hit <-. unfold updateItemStatus at 2 3. rewrite Hit, String.eqb_refl.
  cbn [negb snd]. unfold updateItemStatus.
  assert (Hget : get_item (kv.set ("item:" +:+ itemId)
                             (VItem (Item.with_status it s1)) st) itemId
                 = Some (Item.with_status it s1)).
  { unfold get_item, kv.get, kv.set. now rewrite lookup_insert_eq. }
  rewrite Hget. cbn [Item.with_status Item.userId]. rewrite String.eqb_refl.
  cbn [negb]. unfold kv.set. rewrite insert_insert_eq. reflexivity.
Qed.

Lemma updateItemStatus_last_wins_witness :
  updateItemStatus (snd (updateItemStatus store_with_item "B" "item-1" "resolved"))
                   "B" "item-1" "active"
  = updateItemStatus store_with_item "B" "item-1" "active".
Proof.
  apply (updateItemStatus_last_wins store_with_item "B" "item-1" "resolved" "active"
           backpack); reflexivity.
Defined.

(** X7. Who may write and read: a status update is accepted only from the
    user stored as the item's owner, a message only from a participant of
    the conversation, and the messages of a conversation are returned only
    to a participant. *)
Theorem only_entitled_callers :
  (forall st st' userId itemId status i,
      updateItemStatus st userId itemId status = (Json i, st') ->
      exists it, get_item st itemId = Some it /\ Item.userId it = userId)
  /\ (forall st st' userId cid text now uuid created m,
        send st userId cid text now uuid created = (Json m, st') ->
        exists c, get_conversation st cid = Some c
                  /\ In userId (Conversation.participants c))
  /\ (forall st viewer cid out,
        listMessages st viewer cid = Json out ->
        exists c, get_conversation st cid = Some c
                  /\ In viewer (Conversation.participants c)).
Proof.
  assert (Hincl : forall l x, includes l x = true -> In x l).
  { induction l as [|y l IH]; intros x; simpl; [discriminate|].
    destruct (String.eqb_spec y x) as [->|]; [now left|]. right. now apply IH. }
  split; [|split].
  - intros st st' userId itemId status i. unfold updateItemStatus.
    destruct (get_item st itemId) as [it|]; [|discriminate].
    destruct (String.eqb_spec (Item.userId it) userId); [|discriminate]. eauto.
  - intros st st' userId cid text now uuid created m H.
    apply send_Json_inv in H as (c & Hc & Hin). eauto.
  - intros st viewer cid out. unfold listMessages.
    destruct (get_conversation st cid) as [c|]; [|discriminate].
    destruct (includes _ viewer) eqn:Hin; [|discriminate]. eauto.
Qed.


(** X9. [GET /my-items] returns stored items only, most recent first: each
    item returned is the record under an id of the caller's index, and an
    index entry whose item is missing contributes nothing. *)
Theorem myItems_stored_sorted (st : Store) (userId : string) :
  exists out,
    myItems st userId = Json out
    /\ StronglySorted (fun a b => Item.createdAt b <= Item.createdAt a) out
    /\ (forall i, In i out <->
          exists itemId,
            In (VId itemId) (kv.getByPrefix ("userItem:" +:+ userId +:+ ":") st)
            /\ get_item st itemId = Some i).
Proof.
  unfold myItems. eexists. split; [reflexivity|]. split.
  - eapply StronglySorted_weaken; [|apply (sort_by_StronglySorted by_newest)].
    + intros a b Hab. now apply N.leb_le.
    + intros a b. unfold by_newest. rewrite !N.leb_le. lia.
    + intros a b c. unfold by_newest. rewrite !N.leb_le. lia.
  - intros i. rewrite In_sort_by, <- list_elem_of_In, list_elem_of_omap.
    split; intros (itemId & Hid & Hget); exists itemId; split; try exact Hget.
    + now apply In_ids_of, list_elem_of_In.
    + now apply list_elem_of_In, In_ids_of.
Qed.

(** ** Conversation identity *)

(** X10. The conversation id does not depend on which of the two users is
    the caller and which the owner: the pair is sorted before the id is
    built. *)
Theorem conversationId_symmetric (a b itemId : string) :
  conversationId_of (sort_by String.leb [a; b]) itemId
  = conversationId_of (sort_by String.leb [b; a]) itemId.
Proof.
  rewrite !sort_pair.
  destruct (String.leb a b) eqn:Hab, (String.leb b a) eqn:Hba; try reflexivity.
  - now rewrite (String.leb_antisym a b Hab Hba).
  - destruct (String.leb_total a b); congruence.
Qed.

(** Two strings cut at the first separator: equal wholes have equal
    parts. *)
Lemma sep_split_unique (sep : ascii) (s1 s2 r1 r2 : string) :
  without sep s1 -> without sep s2 ->
  s1 +:+ String sep r1 = s2 +:+ String sep r2 ->
  s1 = s2 /\ r1 = r2.
Proof.
  revert s2. induction s1 as [|c1 s1 IH]; intros [|c2 s2] H1 H2 H.
  - cbn in H. now injection H as ->.
  - rewrite append_cons in H. cbn in H. injection H as <- _. now destruct H2.
  - rewrite append_cons in H. cbn in H. injection H as -> _. now destruct H1.
  - rewrite !append_cons in H. injection H as <- H.
    destruct H1 as [_ H1], H2 as [_ H2].
    destruct (IH s2 H1 H2 H) as [-> ->]. auto.
Qed.

(** X11. For user ids without an underscore (the ids of the identity
    provider are UUIDs), the conversation id determines the pair of users
    and the item: two different (pair, item) never share a conversation. *)
Theorem conversationId_injective (a b i a' b' i' : string) :
  without "_" a -> without "_" b -> without "_" a' -> without "_" b' ->
  conversationId_of [a; b] i = conversationId_of [a'; b'] i' ->
  a = a' /\ b = b' /\ i = i'.
Proof.
  intros Ha Hb Ha' Hb'. unfold conversationId_of. cbn [nth].
  change ("_" +:+ ?x) with (String "_" x).
  intros H. apply sep_split_unique in H as [-> H]; [|assumption..].
  change ("_" +:+ ?x) with (String "_" x) in H.
  apply sep_split_unique in H as [-> ->]; auto.
Qed.

Lemma conversationId_injective_witness :
  conversationId_of ["A"; "B"] "item-1" = "A_B_item-1"
  /\ ("A" = "A" /\ "B" = "B" /\ "item-1" = "item-1").
Proof.
  split; [reflexivity|].
  apply (conversationId_injective "A" "B" "item-1" "A" "B" "item-1");
    try reflexivity; cbn; intuition discriminate.
Defined.

(** Without the hypothesis the ids can collide: a user id with an
    underscore makes two different pairs share one id. *)
Lemma conversationId_collision :
  conversationId_of ["a"; "b_c"] "d" = conversationId_of ["a_b"; "c"] "d".
Proof. reflexivity. Qed.

(** ** Conversations and messages, written then read *)

(** X12. A conversation that [POST /conversations] has created is in the
    [GET /conversations] of the caller and of the item's owner, with the
    item joined. *)
Theorem startConversation_then_listConversations (st : Store)
    (userId itemId : string) (now1 now2 : N) (it : Item.t) :
  let cid := conversationId_of (sort_by String.leb [userId; Item.userId it]) itemId in
  get_item st itemId = Some it ->
  get_conversation st cid = None ->
  exists c st',
    startConversation st userId itemId now1 now2 = (Json c, st')
    /\ forall u, u = userId \/ u = Item.userId it ->
         exists out v,
           listConversations st' u = Json out
           /\ In v out /\ conv v = c /\ item v = Some it.
Proof.
  intros cid Hit Hnone.
  destruct (startConversation_creates st userId itemId now1 now2 it Hit Hnone)
    as (st' & Hrun & Hget & Hidx1 & Hidx2 & Hframe).
  fold cid in Hrun, Hget, Hidx1, Hidx2, Hframe.
  eexists; exists st'. split; [exact Hrun|].
  assert (Hit' : get_item st' itemId = Some it).
  { unfold get_item, kv.get in *. rewrite Hframe; [exact Hit|reflexivity|key_neq]. }
  intros u Hu. unfold listConversations. do 2 eexists.
  split; [reflexivity|]. split; [|split].
  - apply In_sort_by, list_elem_of_In, list_elem_of_omap. exists cid. split.
    + apply list_elem_of_In, In_ids_of.
      apply (getByPrefix_lookup _ ("userConversation:" +:+ u +:+ ":" +:+ cid));
        [|apply index_key_prefix].
      destruct Hu as [->| ->]; assumption.
    + unfold view_conversation. rewrite Hget. reflexivity.
  - reflexivity.
  - cbn. exact Hit'.
Qed.

Lemma startConversation_then_listConversations_witness :
  exists out v,
    listConversations store_with_conversation "B" = Json out
    /\ In v out /\ item v = Some backpack.
Proof.
  destruct (startConversation_then_listConversations store_with_item "A" "item-1"
              2000 2000 backpack eq_refl eq_refl) as (c & st' & Hrun & Hlist).
  destruct (Hlist "B" (or_intror eq_refl)) as (out & v & Hout & Hin & _ & Hitem).
  assert (Hst : st' = store_with_conversation).
  { unfold store_with_conversation. now rewrite Hrun. }
  rewrite Hst in Hout. exists out, v. auto.
Defined.

(** X13. A message that [POST /messages] has accepted is in the
    [GET /messages/:conversationId] of every participant, with the text and
    the sender of the request. *)
Theorem send_then_listMessages (st st' : Store) (userId cid text : string)
    (now : N) (uuid : string) (created : N) (m : Message.t)
    (c : Conversation.t) (viewer : string) :
  send st userId cid text now uuid created = (Json m, st') ->
  get_conversation st cid = Some c ->
  includes (Conversation.participants c) viewer = true ->
  exists out,
    listMessages st' viewer cid = Json out
    /\ In m (map msg out)
    /\ Message.text m = text /\ Message.senderId m = userId
    /\ Message.conversationId m = cid.
Proof.
  intros Hsend Hc Hviewer.
  destruct (send_Json_inv _ _ _ _ _ _ _ _ _ Hsend) as (c0 & Hc0 & Hin).
  assert (c0 = c) as -> by congruence.
  rewrite (send_by_participant st userId cid text now uuid created c Hc Hin) in Hsend.
  injection Hsend as <- <-.
  unfold listMessages.
  assert (Hc' : get_conversation
                  (<["conversation:" +:+ cid :=
                       VConversation (Conversation.with_lastMessageAt c created)]>
                     (<["message:" +:+ messageId_of cid now uuid :=
                          VMessage (Message.mk (messageId_of cid now uuid) cid userId
                                               text created)]> st)) cid
                = Some (Conversation.with_lastMessageAt c created)).
  { kv_simpl. reflexivity. }
  cbn [Message.id] in *. rewrite Hc'. cbn [Conversation.with_lastMessageAt
    Conversation.participants]. rewrite Hviewer. cbn [negb].
  eexists. split; [reflexivity|]. rewrite map_msg_with_names.
  split; [|auto].
  apply In_sort_by, In_messages_of.
  apply (getByPrefix_lookup _ ("message:" +:+ messageId_of cid now uuid)).
  - rewrite lookup_insert_ne by key_neq. apply lookup_insert_eq.
  - apply message_key_prefix.
Qed.

Lemma send_then_listMessages_witness :
  exists out,
    listMessages store_with_message "B" "A_B_item-1" = Json out
    /\ In (Message.mk "A_B_item-1:3000:u-1" "A_B_item-1" "A" "Is this yours?" 3000)
          (map msg out).
Proof.
  destruct (send_then_listMessages store_with_conversation store_with_message
              "A" "A_B_item-1" "Is this yours?" 3000 "u-1" 3000
              (Message.mk "A_B_item-1:3000:u-1" "A_B_item-1" "A" "Is this yours?" 3000)
              (Conversation.mk "A_B_item-1" "item-1" ["A"; "B"] 2000 2000) "B")
    as (out & Hout & Hin & _).
  - by_projections.
  - vm_compute; reflexivity.
  - reflexivity.
  - exists out. auto.
Defined.

(** ** The reads, on any store *)

(** The stable sort leaves elements of one key in the order of the input. *)
Lemma sort_by_stable {A : Type} (key : A -> N) (k : N) (l : list A) :
  List.filter (fun x => key x =? k) (sort_by (fun a b => key a <=? key b) l)
  = List.filter (fun x => key x =? k) l.
Proof.
  assert (Hins : forall x l,
            List.filter (fun y => key y =? k)
                        (insert_sorted (fun a b => key a <=? key b) x l)
            = List.filter (fun y => key y =? k) (x :: l)).
  { intros x l0. induction l0 as [|y l0 IH]; [reflexivity|].
    cbn [insert_sorted]. destruct (key x <=? key y) eqn:Hxy; [reflexivity|].
    apply N.leb_gt in Hxy. cbn [List.filter] in *. rewrite IH.
    destruct (key x =? k) eqn:Hx, (key y =? k) eqn:Hy; try reflexivity.
    apply N.eqb_eq in Hx, Hy. lia. }
  induction l as [|x l IH]; [reflexivity|].
  cbn [sort_by]. rewrite Hins. cbn [List.filter]. now rewrite IH.
Qed.

(** X14. On any store, the messages that [GET /messages/:conversationId]
    returns are the messages stored under the conversation's key prefix,
    each as often as the scan returns it, in ascending order of
    [createdAt], and each with the name joined from the sender's user
    record. *)
Theorem listMessages_stored_sorted (st : Store) (viewer cid : string)
    (out : list MessageWithName) :
  listMessages st viewer cid = Json out ->
  Permutation (map msg out) (messages_of (kv.getByPrefix (message_prefix cid) st))
  /\ StronglySorted (fun a b => Message.createdAt a <= Message.createdAt b)
                    (map msg out)
  /\ (forall mw, In mw out ->
        senderName mw = name_or_unknown (get_user st (Message.senderId (msg mw)))).
Proof.
  unfold listMessages. destruct (get_conversation st cid) as [c|]; [|discriminate].
  destruct (negb _); [discriminate|]. intros [= <-].
  rewrite map_msg_with_names. fold (message_prefix cid).
  split; [apply sort_by_Permutation|]. split.
  - eapply StronglySorted_weaken; [|apply (sort_by_StronglySorted by_createdAt)].
    + intros a b Hab. now apply N.leb_le.
    + intros a b. unfold by_createdAt. rewrite !N.leb_le. lia.
    + intros a b d. unfold by_createdAt. rewrite !N.leb_le. lia.
  - intros mw Hmw. apply in_map_iff in Hmw as (m & <- & _). reflexivity.
Qed.

Lemma listMessages_stored_sorted_witness :
  StronglySorted (fun a b => Message.createdAt a <= Message.createdAt b)
    [Message.mk "A_B_item-1:3000:u-1" "A_B_item-1" "A" "Is this yours?" 3000].
Proof.
  apply (listMessages_stored_sorted store_with_message "B" "A_B_item-1"
           [ {| msg := Message.mk "A_B_item-1:3000:u-1" "A_B_item-1" "A"
                                  "Is this yours?" 3000;
                senderName := "Unknown" |} ]).
  vm_compute; reflexivity.
Defined.

(** X15. Messages with the same [createdAt] are returned in the order in
    which the scan of the store returned them: the sort is stable and
    compares nothing else. *)
Theorem listMessages_ties_in_scan_order (st : Store) (viewer cid : string)
    (out : list MessageWithName) (t : N) :
  listMessages st viewer cid = Json out ->
  List.filter (fun m => Message.createdAt m =? t) (map msg out)
  = List.filter (fun m => Message.createdAt m =? t)
                (messages_of (kv.getByPrefix (message_prefix cid) st)).
Proof.
  unfold listMessages. destruct (get_conversation st cid) as [c|]; [|discriminate].
  destruct (negb _); [discriminate|]. intros [= <-].
  rewrite map_msg_with_names. fold (message_prefix cid).
  apply (sort_by_stable Message.createdAt).
Qed.

Lemma listMessages_ties_in_scan_order_witness :
  List.filter (fun m => Message.createdAt m =? 3000)
    [Message.mk "A_B_item-1:3000:u-1" "A_B_item-1" "A" "Is this yours?" 3000]
  = List.filter (fun m => Message.createdAt m =? 3000)
      (messages_of (kv.getByPrefix (message_prefix "A_B_item-1") store_with_message)).
Proof.
  apply (listMessages_ties_in_scan_order store_with_message "B" "A_B_item-1"
           [ {| msg := Message.mk "A_B_item-1:3000:u-1" "A_B_item-1" "A"
                                  "Is this yours?" 3000;
                senderName := "Unknown" |} ] 3000).
  vm_compute; reflexivity.
Defined.

(** X16. On any store, [GET /conversations] returns stored conversations
    only, the most recently active first: each entry is the conversation
    under an id of the caller's index with the item joined as the store has
    it, and an index entry whose conversation is missing contributes
    nothing. *)
Theorem listConversations_stored_sorted (st : Store) (userId : string) :
  exists out,
    listConversations st userId = Json out
    /\ StronglySorted
         (fun a b => Conversation.lastMessageAt (conv b)
                     <= Conversation.lastMessageAt (conv a)) out
    /\ (forall v, In v out <->
          exists cid,
            In (VId cid) (kv.getByPrefix ("userConversation:" +:+ userId +:+ ":") st)
            /\ view_conversation st userId cid = Some v)
    /\ (forall v, In v out ->
          item v = get_item st (Conversation.itemId (conv v))
          /\ exists cid, get_conversation st cid = Some (conv v)).
Proof.
  unfold listConversations. eexists. split; [reflexivity|].
  assert (Hin : forall v,
            In v (sort_by by_recency
                    (omap (view_conversation st userId)
                       (ids_of (kv.getByPrefix
                                  ("userConversation:" +:+ userId +:+ ":") st)))) <->
            exists cid,
              In (VId cid) (kv.getByPrefix ("userConversation:" +:+ userId +:+ ":") st)
              /\ view_conversation st userId cid = Some v).
  { intros v. rewrite In_sort_by, <- list_elem_of_In, list_elem_of_omap.
    split; intros (cid & Hid & Hview); exists cid; split; try exact Hview.
    - now apply In_ids_of, list_elem_of_In.
    - now apply list_elem_of_In, In_ids_of. }
  split; [|split; [exact Hin|]].
  - eapply StronglySorted_weaken; [|apply (sort_by_StronglySorted by_recency)].
    + intros a b Hab. now apply N.leb_le.
    + intros a b. unfold by_recency. rewrite !N.leb_le. lia.
    + intros a b c. unfold by_recency. rewrite !N.leb_le. lia.
  - intros v Hv. apply Hin in Hv as (cid & _ & Hview).
    unfold view_conversation in Hview.
    destruct (get_conversation st cid) as [c|] eqn:Hc; [|discriminate].
    injection Hview as <-. cbn. eauto.
Qed.

(** ** Authentication *)

Lemma split_on_without (sep : ascii) (s : string) :
  without sep s -> split_on sep s = [s].
Proof.
  induction s as [|c s IH]; intros Hs; [reflexivity|].
  destruct Hs as [Hc Hs]. cbn [split_on].
  destruct (Ascii.eqb_spec c sep); [contradiction|]. now rewrite (IH Hs).
Qed.

Lemma split_on_word (sep : ascii) (w rest : string) :
  without sep w -> split_on sep (w +:+ String sep rest) = w :: split_on sep rest.
Proof.
  induction w as [|c w IH]; intros Hw.
  - change (EmptyString +:+ String sep rest) with (String sep rest).
    cbn [split_on]. now rewrite Ascii.eqb_refl.
  - destruct Hw as [Hc Hw]. rewrite append_cons. cbn [split_on].
    destruct (Ascii.eqb_spec c sep); [contradiction|]. now rewrite (IH Hw).
Qed.

(** X17. The middleware takes the second word of the [Authorization] header
    as the token and never looks at the first: a token that the identity
    provider resolves authenticates under any scheme word, and the route
    runs with the id and e-mail the provider returned. *)
Theorem requireAuth_any_scheme {A : Type} (getUser : string -> option AuthUser)
    (scheme token : string) (user : AuthUser)
    (next : string -> string -> Store -> Response A * Store) (st : Store) :
  without " " scheme -> without " " token ->
  token <> EmptyString ->
  getUser token = Some user ->
  auth_id user <> EmptyString ->
  requireAuth getUser (Some (scheme +:+ " " +:+ token)) next st
  = next (auth_id user) (auth_email user) st.
Proof.
  intros Hs Ht Hne Huser Hid. unfold requireAuth, accessToken_of.
  change (" " +:+ token) with (String " " token).
  rewrite (split_on_word " " scheme token Hs), (split_on_without " " token Ht).
  cbn [nth_error]. apply String.eqb_neq in Hne, Hid. now rewrite Hne, Huser, Hid.
Qed.

Lemma requireAuth_any_scheme_witness :
  requireAuth (fun _ => Some {| auth_id := "B"; auth_email := "b@campus" |})
    (Some "Basic t0k3n")
    (fun userId _ st => updateItemStatus st userId "item-1" "resolved") store_with_item
  = updateItemStatus store_with_item "B" "item-1" "resolved".
Proof.
  apply (requireAuth_any_scheme
           (fun _ => Some {| auth_id := "B"; auth_email := "b@campus" |})
           "Basic" "t0k3n" {| auth_id := "B"; auth_email := "b@campus" |});
    try reflexivity; try discriminate; cbn; intuition discriminate.
Defined.

(** X18. A request without [Authorization] header, or whose header has no
    space (the bare token, say), is answered 401 whatever the identity
    provider would say; the route does not run and the store is unchanged. *)
Theorem requireAuth_no_token {A : Type} (getUser : string -> option AuthUser)
    (header : option string)
    (next : string -> string -> Store -> Response A * Store) (st : Store) :
  (header = None \/ exists h, header = Some h /\ without " " h) ->
  requireAuth getUser header next st
  = (Error 401 "Unauthorized - No token provided", st).
Proof.
  intros [->|(h & -> & Hh)]; [reflexivity|].
  unfold requireAuth, accessToken_of. now rewrite (split_on_without " " h Hh).
Qed.

Lemma requireAuth_no_token_witness :
  requireAuth (fun _ => Some {| auth_id := "B"; auth_email := "b@campus" |})
    (Some "t0k3n")
    (fun userId _ st => updateItemStatus st userId "item-1" "resolved") store_with_item
  = (Error 401 "Unauthorized - No token provided", store_with_item).
Proof.
  apply requireAuth_no_token. right. exists "t0k3n".
  split; [reflexivity|]. cbn. intuition discriminate.
Defined.

(** ** Users *)

(** What an accepted signup stores. *)
Lemma signup_Json_inv (createUser : string -> string -> string -> CreateUserResult)
    (st st' : Store) (email password name : option string) (now : N)
    (user : AuthUser) :
  signup createUser st email password name now = (Json user, st') ->
  present name = true
  /\ get_user st' (auth_id user)
     = Some (User.mk (auth_id user) (auth_email user) (value_of name) now).
Proof.
  unfold signup. destruct (present email), (present password); try discriminate.
  destruct (present name) eqn:Hname; [|discriminate]. cbn [negb orb].
  destruct (createUser _ _ _) as [|created]; [discriminate|]. intros [= <- <-].
  split; [reflexivity|].
  unfold get_user, kv.get, kv.set. now rewrite lookup_insert_eq.
Qed.

Lemma present_value_of (field : option string) :
  present field = true -> field <> None /\ value_of field <> EmptyString.
Proof.
  destruct field as [s|]; [|discriminate]. cbn.
  destruct (String.eqb_spec s EmptyString); [discriminate|]. now split.
Qed.

(** X19. A user that [POST /signup] has accepted is stored under the id the
    identity provider returned, with the provider's e-mail and the name of
    the request; the name is not empty, so the reads that join this user
    show the name and not the placeholder. *)
Theorem signup_then_named (createUser : string -> string -> string -> CreateUserResult)
    (st st' : Store) (email password name : option string) (now : N)
    (user : AuthUser) :
  signup createUser st email password name now = (Json user, st') ->
  exists u,
    get_user st' (auth_id user) = Some u
    /\ User.id u = auth_id user
    /\ User.email u = auth_email user
    /\ User.name u = value_of name
    /\ User.createdAt u = now
    /\ name <> None /\ value_of name <> EmptyString
    /\ name_or_unknown (get_user st' (auth_id user)) = value_of name.
Proof.
  intros H. apply signup_Json_inv in H as [Hname Hget].
  destruct (present_value_of name Hname) as [Hsome Hne].
  eexists. split; [exact Hget|]. rewrite Hget. cbn.
  apply String.eqb_neq in Hne as Hne'. rewrite Hne'.
  repeat split; try reflexivity; assumption.
Qed.

Lemma signup_then_named_witness :
  name_or_unknown
    (get_user (snd (signup createUser_ok ∅ (Some "ann@campus") (Some "pw") (Some "Ann") 7))
              "id-of-ann@campus") = "Ann".
Proof.
  destruct (signup_then_named createUser_ok ∅
              (snd (signup createUser_ok ∅ (Some "ann@campus") (Some "pw") (Some "Ann") 7))
              (Some "ann@campus") (Some "pw") (Some "Ann") 7
              {| auth_id := "id-of-ann@campus"; auth_email := "ann@campus" |})
    as (u & _ & _ & _ & _ & _ & _ & _ & Hname).
  - by_projections.
  - exact Hname.
Defined.

Lemma get_user_set_other (st : Store) (k : string) (v : Value) (uid : string) :
  starts_with "user:" k = false ->
  get_user (kv.set k v st) uid = get_user st uid.
Proof.
  intros Hk. unfold get_user, kv.get, kv.set. rewrite lookup_insert_ne; [reflexivity|].
  intros ->. discriminate Hk.
Qed.

(** No route but the signup writes a user record. *)
Lemma serve_keeps_users (createUser : string -> string -> string -> CreateUserResult)
    (upload : string -> UploadResult) (st : Store) (c : Call) (uid : string) :
  signs_up_as createUser uid c = false ->
  get_user (serve createUser upload st c) uid = get_user st uid.
Proof.
  destruct c as [email password name now|userId form itemId now|r]; cbn [serve signs_up_as].
  - unfold signup.
    destruct (present email), (present password), (present name); cbn; try reflexivity.
    destruct (createUser _ _ _) as [|created]; [reflexivity|]. cbn [snd].
    intros Hne. apply String.eqb_neq in Hne.
    unfold get_user, kv.get, kv.set. rewrite lookup_insert_ne; [reflexivity|].
    intros H. apply app_inj_prefix in H. contradiction.
  - intros _. unfold createItem. destruct (_ || _); [reflexivity|].
    destruct (form_image form); [destruct (upload _)|]; try reflexivity;
      cbn [snd]; now rewrite !get_user_set_other.
  - intros _. destruct r; cbn [handle].
    + unfold updateItemStatus. destruct (get_item _ _); [|reflexivity].
      destruct (negb _); [reflexivity|]. cbn [snd]. now rewrite get_user_set_other.
    + unfold startConversation. destruct (get_item _ _); [|reflexivity].
      destruct (get_conversation _ _); [reflexivity|]. cbn [snd].
      now rewrite !get_user_set_other.
    + unfold send. destruct (get_conversation _ _); [|reflexivity].
      destruct (negb _); [reflexivity|]. cbn [snd]. now rewrite !get_user_set_other.
Qed.

(** X20. The name of a signed-up user stays: after the signup and any
    further requests to the writing routes (other than a signup that the
    identity provider answers with the same user id), every message of this
    user is listed with the name given at signup. *)
Theorem signed_up_sender_is_named
    (createUser : string -> string -> string -> CreateUserResult)
    (upload : string -> UploadResult) (st st1 : Store)
    (email password name : option string) (now : N) (user : AuthUser)
    (calls : list Call) (viewer cid : string) (out : list MessageWithName)
    (mw : MessageWithName) :
  signup createUser st email password name now = (Json user, st1) ->
  Forall (fun c => signs_up_as createUser (auth_id user) c = false) calls ->
  listMessages (serve_all createUser upload st1 calls) viewer cid = Json out ->
  In mw out ->
  Message.senderId (msg mw) = auth_id user ->
  senderName mw = value_of name.
Proof.
  intros Hsignup Hcalls Hlist Hmw Hsender.
  apply signup_Json_inv in Hsignup as [Hname Hget].
  apply present_value_of in Hname as [_ Hname]. apply String.eqb_neq in Hname.
  assert (Hkeep : get_user (serve_all createUser upload st1 calls) (auth_id user)
                  = get_user st1 (auth_id user)).
  { clear -Hcalls. revert st1. unfold serve_all.
    induction Hcalls as [|c calls Hc _ IH]; intros st1; [reflexivity|].
    cbn [fold_left]. rewrite IH. now apply serve_keeps_users. }
  unfold listMessages in Hlist.
  destruct (get_conversation _ cid); [|discriminate].
  destruct (negb _); [discriminate|]. injection Hlist as <-.
  apply in_map_iff in Hmw as (m & <- & _). cbn in *.
  rewrite Hsender, Hkeep, Hget. cbn. now rewrite Hname.
Qed.

Lemma signed_up_sender_is_named_witness :
  listMessages (serve_all createUser_ok upload_ok store_ann ann_writes)
               "B" "B_id-of-ann@campus_item-1"
  = Json [ {| msg := Message.mk "B_id-of-ann@campus_item-1:10:u-1"
                                "B_id-of-ann@campus_item-1" "id-of-ann@campus"
                                "Is this yours?" 10;
              senderName := "Ann" |} ]
  /\ value_of (Some "Ann") = "Ann".
Proof.
  set (mw := {| msg := Message.mk "B_id-of-ann@campus_item-1:10:u-1"
                                  "B_id-of-ann@campus_item-1" "id-of-ann@campus"
                                  "Is this yours?" 10;
                senderName := "Ann" |}).
  assert (Hlist : listMessages (serve_all createUser_ok upload_ok store_ann ann_writes)
                               "B" "B_id-of-ann@campus_item-1" = Json [mw])
    by (vm_compute; reflexivity).
  split; [exact Hlist|]. symmetry.
  apply (signed_up_sender_is_named createUser_ok upload_ok ∅ store_ann
           (Some "ann@campus") (Some "pw") (Some "Ann") 7
           {| auth_id := "id-of-ann@campus"; auth_email := "ann@campus" |}
           ann_writes "B" "B_id-of-ann@campus_item-1" [mw] mw).
  - by_projections.
  - repeat constructor.
  - exact Hlist.
  - now left.
  - reflexivity.
Defined.

(** ** Typing of the store, for all routes *)

(** X21. The routes keep the key space typed: in a store reached from a
    typed store (the empty store is one) by any requests to the five
    writing routes, a user record is only under a [user:] key, an item only
    under [item:], a conversation only under [conversation:], a message only
    under [message:] and a bare id only under one of the two index
    prefixes. *)
Theorem serve_all_typed (createUser : string -> string -> string -> CreateUserResult)
    (upload : string -> UploadResult) (calls : list Call) (st : Store) :
  store_typed st ->
  store_typed (serve_all createUser upload st calls).
Proof.
  revert st. unfold serve_all.
  induction calls as [|c calls IH]; intros st Hst; [exact Hst|].
  cbn [fold_left]. apply IH.
  destruct c as [email password name now|userId form itemId now|r]; cbn [serve].
  - unfold signup. destruct (_ || _); [exact Hst|].
    destruct (createUser _ _ _); [exact Hst|]. cbn [snd].
    now apply store_typed_set.
  - unfold createItem. destruct (_ || _); [exact Hst|].
    destruct (form_image form); [destruct (upload _)|]; try exact Hst;
      cbn [snd]; repeat apply store_typed_set; auto.
  - destruct r; cbn [handle].
    + now apply updateItemStatus_typed.
    + now apply startConversation_typed.
    + now apply send_typed.
Qed.

Lemma serve_all_typed_witness :
  store_typed (serve_all createUser_ok upload_ok ∅ ann_writes).
Proof.
  apply (serve_all_typed createUser_ok upload_ok ann_writes ∅).
  intros k v H. rewrite lookup_empty in H. discriminate H.
Defined.

(** ** The path of an uploaded image *)

Lemma split_on_last (sep : ascii) (ext : string) :
  without sep ext ->
  forall base,
  exists w ws, split_on sep (base +:+ String sep ext) = w :: ws
               /\ ws <> [] /\ List.last ws EmptyString = ext.
Proof.
  intros Hext. induction base as [|c base (w & ws & IH & Hne & Hlast)].
  - exists EmptyString, [ext].
    rewrite (split_on_word sep EmptyString ext I), (split_on_without sep ext Hext).
    split; [reflexivity|]. split; [discriminate|reflexivity].
  - rewrite append_cons. cbn [split_on]. rewrite IH.
    destruct (Ascii.eqb c sep).
    + exists EmptyString, (w :: ws). split; [reflexivity|]. split; [discriminate|].
      destruct ws; [contradiction|exact Hlast].
    + exists (String c w), ws. auto.
Qed.

(** X22. The image of a new item is stored under the item's id followed by
    the extension of the file name, which is what follows the last dot of
    the name: for a name [base.ext] with no dot in [ext] the path is
    [itemId.ext], whatever dots [base] has. *)
Theorem filePath_of_extension (itemId base ext : string) :
  without "." ext ->
  filePath_of itemId (base +:+ "." +:+ ext) = itemId +:+ "." +:+ ext.
Proof.
  intros Hext. unfold filePath_of, file_extension.
  change ("." +:+ ext) with (String "." ext) at 1.
  destruct (split_on_last "." ext Hext base) as (w & ws & -> & Hne & Hlast).
  destruct ws as [|w' ws]; [contradiction|].
  change (List.last (w :: w' :: ws) EmptyString) with (List.last (w' :: ws) EmptyString).
  now rewrite Hlast.
Qed.

Lemma filePath_of_extension_witness :
  filePath_of "item-1" "back.pack.jpg" = "item-1.jpg".
Proof.
  apply (filePath_of_extension "item-1" "back.pack" "jpg").
  cbn. intuition discriminate.
Defined.

(** ** Message keys *)

Lemma all_digits_without_colon (s : string) : all_digits s -> without ":" s.
Proof.
  induction s as [|c s IH]; [auto|]. intros [Hc Hs]. split; [|auto].
  intros ->. cbn in Hc. lia.
Qed.

(** X23. For conversation ids without a colon, the message id determines
    the conversation, the clock reading and the random part: two accepted
    messages are stored under the same key only if they agree on all
    three. *)
Theorem messageId_injective (cid1 cid2 : string) (t1 t2 : N) (u1 u2 : string) :
  without ":" cid1 -> without ":" cid2 ->
  messageId_of cid1 t1 u1 = messageId_of cid2 t2 u2 ->
  cid1 = cid2 /\ t1 = t2 /\ u1 = u2.
Proof.
  intros H1 H2. unfold messageId_of.
  change (":" +:+ ?x) with (String ":" x).
  intros H. apply sep_split_unique in H as [-> H]; [|assumption..].
  change (":" +:+ ?x) with (String ":" x) in H.
  apply sep_split_unique in H as [Ht ->];
    try (apply all_digits_without_colon, N_to_string_spec).
  split; [reflexivity|]. split; [|reflexivity]. now apply N_to_string_inj.
Qed.

Lemma messageId_injective_witness :
  "A_B_item-1" = "A_B_item-1" /\ 3000 = 3000 /\ "u-1" = "u-1".
Proof.
  apply (messageId_injective "A_B_item-1" "A_B_item-1" 3000 3000 "u-1" "u-1");
    try reflexivity; cbn; intuition discriminate.
Defined.

(** ** Messages stay in their conversation *)

Lemma without_app (sep : ascii) (s1 s2 : string) :
  without sep s1 -> without sep s2 -> without sep (s1 +:+ s2).
Proof.
  induction s1 as [|c s1 IH]; [auto|]. intros [Hc H1] H2.
  rewrite append_cons. split; [exact Hc|auto].
Qed.

Lemma starts_with_app_prefix (p a b : string) :
  starts_with (p +:+ a) (p +:+ b) = starts_with a b.
Proof.
  induction p as [|c p IH]; [reflexivity|].
  rewrite !append_cons. cbn [starts_with]. now rewrite Ascii.eqb_refl.
Qed.

(** A prefix that ends at a separator fixes the part before the first
    separator. *)
Lemma starts_with_sep (sep : ascii) (s1 s2 r : string) :
  without sep s1 -> without sep s2 ->
  starts_with (s1 +:+ String sep EmptyString) (s2 +:+ String sep r) = true ->
  s1 = s2.
Proof.
  revert s2. induction s1 as [|c1 s1 IH]; intros [|c2 s2] H1 H2 H.
  - reflexivity.
  - rewrite append_cons in H.
    change (EmptyString +:+ ?x) with x in H. cbn [starts_with] in H.
    destruct (Ascii.eqb_spec sep c2) as [<-|]; [now destruct H2|discriminate].
  - rewrite append_cons in H.
    change (EmptyString +:+ ?x) with x in H. cbn [starts_with] in H.
    destruct (Ascii.eqb_spec c1 sep) as [->|]; [now destruct H1|discriminate].
  - rewrite !append_cons in H. cbn [starts_with] in H.
    destruct (Ascii.eqb_spec c1 c2) as [->|]; [|discriminate].
    destruct H1 as [_ H1], H2 as [_ H2]. now rewrite (IH s2 H1 H2 H).
Qed.

Lemma get_item_set (st : Store) (k : string) (v : Value) (itemId : string) :
  get_item (kv.set k v st) itemId
  = if decide (k = "item:" +:+ itemId)
    then match v with VItem i => Some i | _ => None end
    else get_item st itemId.
Proof.
  unfold get_item, kv.get, kv.set. rewrite lookup_insert.
  now destruct (decide (k = "item:" +:+ itemId)).
Qed.

Lemma get_item_set_other (st : Store) (k : string) (v : Value) (itemId : string) :
  starts_with "item:" k = false ->
  get_item (kv.set k v st) itemId = get_item st itemId.
Proof.
  intros Hk. rewrite get_item_set.
  destruct (decide (k = "item:" +:+ itemId)) as [->|]; [|reflexivity].
  discriminate Hk.
Qed.

(** A write of anything but an item, a conversation or a message keeps the
    invariant. *)
Lemma colon_free_set_other (st : Store) (k : string) (v : Value) :
  starts_with "item:" k = false ->
  starts_with "conversation:" k = false ->
  (forall m, v <> VMessage m) ->
  colon_free st -> colon_free (kv.set k v st).
Proof.
  intros Hi Hc Hv [Hitems Hconvs Hmsgs]. split.
  - intros itemId it. rewrite get_item_set_other by exact Hi. apply Hitems.
  - intros cid c. rewrite get_conversation_set_other by exact Hc. apply Hconvs.
  - intros k' m. unfold kv.set. rewrite lookup_insert.
    case_decide; [intros [= ->]; now destruct (Hv m)|apply Hmsgs].
Qed.

Lemma colon_free_set_item (st : Store) (itemId : string) (i : Item.t) :
  without ":" itemId -> without ":" (Item.userId i) ->
  colon_free st -> colon_free (kv.set ("item:" +:+ itemId) (VItem i) st).
Proof.
  intros Hid Hown [Hitems Hconvs Hmsgs]. split.
  - intros itemId' it. rewrite get_item_set.
    case_decide as E; [|apply Hitems].
    apply app_inj_prefix in E as <-. now intros [= <-].
  - intros cid c. rewrite get_conversation_set_other by reflexivity. apply Hconvs.
  - intros k' m. unfold kv.set. rewrite lookup_insert.
    case_decide; [discriminate|apply Hmsgs].
Qed.

Lemma colon_free_set_conversation (st : Store) (cid : string) (c : Conversation.t) :
  without ":" cid ->
  colon_free st -> colon_free (kv.set ("conversation:" +:+ cid) (VConversation c) st).
Proof.
  intros Hcid [Hitems Hconvs Hmsgs]. split.
  - intros itemId it. rewrite get_item_set_other by reflexivity. apply Hitems.
  - intros cid' c'. rewrite get_conversation_set.
    case_decide as E; [|apply Hconvs].
    apply app_inj_prefix in E as <-. now intros _.
  - intros k' m. unfold kv.set. rewrite lookup_insert.
    case_decide; [discriminate|apply Hmsgs].
Qed.

Lemma colon_free_set_message (st : Store) (m : Message.t) (now : N) (uuid : string) :
  without ":" (Message.conversationId m) ->
  Message.id m = messageId_of (Message.conversationId m) now uuid ->
  colon_free st -> colon_free (kv.set ("message:" +:+ Message.id m) (VMessage m) st).
Proof.
  intros Hcid Hid [Hitems Hconvs Hmsgs]. split.
  - intros itemId it. rewrite get_item_set_other by reflexivity. apply Hitems.
  - intros cid c. rewrite get_conversation_set_other by reflexivity. apply Hconvs.
  - intros k' m'. unfold kv.set. rewrite lookup_insert.
    case_decide as E; [|apply Hmsgs].
    intros [= <-]. split; [exact Hcid|]. exists now, uuid. now rewrite <- E, Hid.
Qed.

Lemma serve_colon_free (createUser : string -> string -> string -> CreateUserResult)
    (upload : string -> UploadResult) (st : Store) (c : Call) :
  call_ids_colon_free c -> colon_free st ->
  colon_free (serve createUser upload st c).
Proof.
  intros Hc Hst.
  destruct c as [email password name now|userId form itemId now|r]; cbn [serve].
  - unfold signup. destruct (_ || _); [exact Hst|].
    destruct (createUser _ _ _); [exact Hst|]. cbn [snd].
    apply colon_free_set_other; try reflexivity; [discriminate|exact Hst].
  - destruct Hc as [Hu Hi]. unfold createItem. destruct (_ || _); [exact Hst|].
    destruct (form_image form); [destruct (upload _)|]; try exact Hst; cbn [snd];
      (apply colon_free_set_other; try reflexivity; [discriminate|]);
      now apply colon_free_set_item.
  - destruct r as [userId itemId status|userId itemId now1 now2
                   |userId cid text now uuid created]; cbn [handle].
    + unfold updateItemStatus. destruct (get_item st itemId) as [it|] eqn:Hit;
        [|exact Hst].
      destruct (negb _); [exact Hst|]. cbn [snd].
      destruct (cf_items st Hst itemId it Hit) as [Hid Hown].
      now apply colon_free_set_item.
    + cbn in Hc. unfold startConversation.
      destruct (get_item st itemId) as [it|] eqn:Hit; [|exact Hst].
      destruct (get_conversation st _); [exact Hst|]. cbn [snd].
      destruct (cf_items st Hst itemId it Hit) as [Hid Hown].
      do 2 (apply colon_free_set_other; try reflexivity; [discriminate|]).
      apply colon_free_set_conversation; [|exact Hst].
      rewrite sort_pair. unfold conversationId_of.
      destruct (String.leb userId (Item.userId it)); cbn [nth];
        repeat (apply without_app; [assumption|]);
        repeat (apply without_app; [cbn; intuition discriminate|]); assumption.
    + unfold send. destruct (get_conversation st cid) as [c|] eqn:Hcid; [|exact Hst].
      destruct (negb _); [exact Hst|]. cbn [snd].
      pose proof (cf_conversations st Hst cid c Hcid) as Hfree.
      apply colon_free_set_conversation; [exact Hfree|].
      apply (colon_free_set_message st
               (Message.mk (messageId_of cid now uuid) cid userId text created)
               now uuid); [exact Hfree|reflexivity|exact Hst].
Qed.

Lemma colon_free_empty : colon_free ∅.
Proof.
  split.
  - intros itemId it H. unfold get_item, kv.get in H. now rewrite lookup_empty in H.
  - intros cid c H. unfold get_conversation, kv.get in H. now rewrite lookup_empty in H.
  - intros k m H. now rewrite lookup_empty in H.
Qed.

Lemma serve_all_colon_free (createUser : string -> string -> string -> CreateUserResult)
    (upload : string -> UploadResult) (calls : list Call) :
  Forall call_ids_colon_free calls ->
  forall st, colon_free st -> colon_free (serve_all createUser upload st calls).
Proof.
  unfold serve_all. induction 1 as [|c calls Hc _ IH]; intros st Hst; [exact Hst|].
  cbn [fold_left]. apply IH. now apply serve_colon_free.
Qed.

(** X24. Messages do not leak between conversations.  In any store reached
    from the empty store by requests whose user and item ids have no colon,
    the read of a conversation returns only messages that were sent to this
    conversation: the prefix scan over the message keys matches no key of
    another conversation. *)
Theorem listMessages_only_own_conversation
    (createUser : string -> string -> string -> CreateUserResult)
    (upload : string -> UploadResult) (calls : list Call)
    (viewer cid : string) (out : list MessageWithName) (mw : MessageWithName) :
  Forall call_ids_colon_free calls ->
  listMessages (serve_all createUser upload ∅ calls) viewer cid = Json out ->
  In mw out ->
  Message.conversationId (msg mw) = cid.
Proof.
  intros Hcalls Hlist Hmw.
  pose proof (serve_all_colon_free createUser upload calls Hcalls ∅ colon_free_empty)
    as Hst.
  set (st := serve_all createUser upload ∅ calls) in *.
  unfold listMessages in Hlist.
  destruct (get_conversation st cid) as [c|] eqn:Hc; [|discriminate].
  destruct (negb _); [discriminate|]. injection Hlist as <-.
  apply in_map_iff in Hmw as (m & <- & Hm). cbn [msg].
  apply In_sort_by, In_messages_of, getByPrefix_In in Hm as (k & Hk & Hp).
  destruct (cf_messages st Hst k m Hk) as (Hfree & now & uuid & ->).
  pose proof (cf_conversations st Hst cid c Hc) as Hcid.
  unfold messageId_of in Hp. rewrite starts_with_app_prefix in Hp.
  change (":" +:+ ?x) with (String ":" x) in Hp.
  symmetry. exact (starts_with_sep ":" _ _ _ Hcid Hfree Hp).
Qed.

Lemma listMessages_only_own_conversation_witness :
  Message.conversationId
    (Message.mk "B_id-of-ann@campus_item-1:10:u-1" "B_id-of-ann@campus_item-1"
                "id-of-ann@campus" "Is this yours?" 10)
  = "B_id-of-ann@campus_item-1".
Proof.
  apply (listMessages_only_own_conversation createUser_ok upload_ok
           (CallSignup (Some "ann@campus") (Some "pw") (Some "Ann") 7 :: ann_writes)
           "B" "B_id-of-ann@campus_item-1"
           [ {| msg := Message.mk "B_id-of-ann@campus_item-1:10:u-1"
                                  "B_id-of-ann@campus_item-1" "id-of-ann@campus"
                                  "Is this yours?" 10;
                senderName := "Ann" |} ]
           {| msg := Message.mk "B_id-of-ann@campus_item-1:10:u-1"
                                "B_id-of-ann@campus_item-1" "id-of-ann@campus"
                                "Is this yours?" 10;
              senderName := "Ann" |}).
  - repeat constructor; cbn; intuition discriminate.
  - vm_compute; reflexivity.
  - now left.
Defined.

(** ** Witnesses for the freshness of conversations *)

Lemma send_all_lastMessageAt_witness :
  get_conversation
    (snd (send_all store_with_conversation "A_B_item-1"
            [ {| caller := "A"; body := "Is this yours?"; id_now := 3000;
                 id_uuid := "u-1"; created := 3000 |};
              {| caller := "B"; body := "Yes!"; id_now := 3001;
                 id_uuid := "u-2"; created := 3001 |} ]))
    "A_B_item-1"
  = Some (Conversation.mk "A_B_item-1" "item-1" ["A"; "B"] 2000 3001).
Proof.
  apply (send_all_lastMessageAt "A_B_item-1"
           [ {| caller := "A"; body := "Is this yours?"; id_now := 3000;
                id_uuid := "u-1"; created := 3000 |};
             {| caller := "B"; body := "Yes!"; id_now := 3001;
                id_uuid := "u-2"; created := 3001 |} ]
           store_with_conversation
           (Conversation.mk "A_B_item-1" "item-1" ["A"; "B"] 2000 2000)).
  - vm_compute; reflexivity.
  - intros call [<-|[<-|[]]]; reflexivity.
Defined.

